(** * Field-definition reconciliation of the metaobject-definition resource

    A shallow embedding of the field-level diff computed by
    [MetaobjectDefinitionResource.Update] and of the re-sorting done by
    [convertMetaobjectDefinitionToResourceModel]
    (internal/provider/resource_metaobject_definition.go), together with the
    properties the specification states about them. *)

From stdpp Require Import gmap strings list fin_maps sorting.

Set Default Proof Using "Type".
#[local] Set Warnings "-clear-no-such-hyp".

(** ** Values of the plugin framework

    [types.String] and [types.Bool] carry a state (null, unknown, known) and,
    when known, a value. The framework's constructors never store a value in
    a null or unknown one, so Go's [reflect.DeepEqual] on them is equality of
    the constructors below. *)
Module types.

Inductive String : Type :=
| StringNull
| StringUnknown
| StringValue (value : string).

Inductive Bool : Type :=
| BoolNull
| BoolUnknown
| BoolValue (value : bool).

#[global] Instance String_eq_dec : EqDecision String.
Proof. solve_decision. Defined.

#[global] Instance Bool_eq_dec : EqDecision Bool.
Proof. solve_decision. Defined.

(** [ValueString] is the empty string for a null or unknown value. *)
Definition ValueString (s : String) : string :=
  match s with
  | StringValue v => v
  | _ => EmptyString
  end.

(** [ValueStringPointer] is nil for a null value only. *)
Definition ValueStringPointer (s : String) : option string :=
  match s with
  | StringNull => None
  | StringUnknown => Some EmptyString
  | StringValue v => Some v
  end.

Definition IsNull (s : String) : bool :=
  match s with
  | StringNull => true
  | _ => false
  end.

(** [Equal] compares the states and, for known values, the values. *)
Definition Equal (s o : String) : bool :=
  match s, o with
  | StringNull, StringNull => true
  | StringUnknown, StringUnknown => true
  | StringValue v, StringValue w => bool_decide (v = w)
  | _, _ => false
  end.

Definition ValueBool (b : Bool) : bool :=
  match b with
  | BoolValue v => v
  | _ => false
  end.

End types.

(** ** Inputs of the remote API (package shopify), as Update builds them *)
Module shopify.

Record MetafieldDefinitionValidation : Type := {
  vName : string;
  vValue : string
}.

Record MetaobjectFieldDefinitionCreateInput : Type := {
  cKey : string;
  cName : option string;
  cDescription : option string;
  cType : string;
  cRequired : bool;
  cValidations : list MetafieldDefinitionValidation
}.

Record MetaobjectFieldDefinitionUpdateInput : Type := {
  uKey : string;
  uName : option string;
  uDescription : option string;
  uRequired : bool;
  uValidations : list MetafieldDefinitionValidation
}.

Record MetaobjectFieldDefinitionDeleteInput : Type := {
  dKey : string
}.

(** One operation: a struct of three pointers, of which the provider sets
    exactly one. *)
Record MetaobjectFieldDefinitionOperationInput : Type := {
  Create : option MetaobjectFieldDefinitionCreateInput;
  Update : option MetaobjectFieldDefinitionUpdateInput;
  Delete : option MetaobjectFieldDefinitionDeleteInput
}.

(** The remote representation of a field definition ([Type.Name] is kept
    as [fType]). *)
Record MetaobjectFieldDefinition : Type := {
  fKey : string;
  fName : string;
  fDescription : string;
  fType : string;
  fRequired : bool;
  fValidations : list MetafieldDefinitionValidation
}.

#[global] Instance validation_eq_dec : EqDecision MetafieldDefinitionValidation.
Proof. solve_decision. Defined.

#[global] Instance create_eq_dec : EqDecision MetaobjectFieldDefinitionCreateInput.
Proof. solve_decision. Defined.

#[global] Instance update_eq_dec : EqDecision MetaobjectFieldDefinitionUpdateInput.
Proof. solve_decision. Defined.

#[global] Instance delete_eq_dec : EqDecision MetaobjectFieldDefinitionDeleteInput.
Proof. solve_decision. Defined.

#[global] Instance operation_eq_dec : EqDecision MetaobjectFieldDefinitionOperationInput.
Proof. solve_decision. Defined.

End shopify.

(** ** The resource model *)

Record MetafieldDefinitionValidationModel : Type := {
  ValidationName : types.String;
  ValidationValue : types.String
}.

(** A field definition of a snapshot. [Validations] is a Go slice: [None] is
    the nil slice, which [reflect.DeepEqual] tells apart from an empty one.
    A snapshot is a slice of pointers to such structs; [Update] reads
    through each pointer without a nil check, and a snapshot is modelled as
    the list of the structs pointed to. On these, [reflect.DeepEqual] is
    equality. *)
Record MetaobjectFieldDefinitionModel : Type := {
  Key : types.String;
  Name : types.String;
  Description : types.String;
  Type_ : types.String;
  Required : types.Bool;
  Validations : option (list MetafieldDefinitionValidationModel)
}.

#[global] Instance validation_model_eq_dec : EqDecision MetafieldDefinitionValidationModel.
Proof. solve_decision. Defined.

#[global] Instance field_model_eq_dec : EqDecision MetaobjectFieldDefinitionModel.
Proof. solve_decision. Defined.

Abbreviation Operation := shopify.MetaobjectFieldDefinitionOperationInput.

(** The map key of a field definition: [fieldDefinition.Key.ValueString()]. *)
Definition keyOf (fieldDefinition : MetaobjectFieldDefinitionModel) : string :=
  types.ValueString (Key fieldDefinition).

Definition convertValidationModelsToValidations
    (validationModels : option (list MetafieldDefinitionValidationModel))
    : list shopify.MetafieldDefinitionValidation :=
  (λ model,
     {| shopify.vName := types.ValueString (ValidationName model);
        shopify.vValue := types.ValueString (ValidationValue model) |})
    <$> default [] validationModels.

Definition convertValidationsToModels
    (validations : list shopify.MetafieldDefinitionValidation)
    : option (list MetafieldDefinitionValidationModel) :=
  if decide (length validations = 0) then None
  else Some ((λ validation,
                {| ValidationName := types.StringValue (shopify.vName validation);
                   ValidationValue := types.StringValue (shopify.vValue validation) |})
               <$> validations).

Definition convertMetaobjectFieldDefinitionModelToCreateInput
    (model : MetaobjectFieldDefinitionModel)
    : shopify.MetaobjectFieldDefinitionCreateInput :=
  {| shopify.cKey := types.ValueString (Key model);
     shopify.cName := types.ValueStringPointer (Name model);
     shopify.cDescription := types.ValueStringPointer (Description model);
     shopify.cType := types.ValueString (Type_ model);
     shopify.cRequired := types.ValueBool (Required model);
     shopify.cValidations := convertValidationModelsToValidations (Validations model) |}.

(** The three operation literals written in [Update]. *)
Definition CreateOp (input : shopify.MetaobjectFieldDefinitionCreateInput) : Operation :=
  {| shopify.Create := Some input; shopify.Update := None; shopify.Delete := None |}.

Definition UpdateOp (input : shopify.MetaobjectFieldDefinitionUpdateInput) : Operation :=
  {| shopify.Create := None; shopify.Update := Some input; shopify.Delete := None |}.

Definition DeleteOp (key : string) : Operation :=
  {| shopify.Create := None; shopify.Update := None;
     shopify.Delete := Some {| shopify.dKey := key |} |}.

(** The update input built from a desired entry (lines 323-329). *)
Definition updateInputOf (newFieldDef : MetaobjectFieldDefinitionModel)
    : shopify.MetaobjectFieldDefinitionUpdateInput :=
  {| shopify.uKey := types.ValueString (Key newFieldDef);
     shopify.uName := types.ValueStringPointer (Name newFieldDef);
     shopify.uDescription := types.ValueStringPointer (Description newFieldDef);
     shopify.uRequired := types.ValueBool (Required newFieldDef);
     shopify.uValidations := convertValidationModelsToValidations (Validations newFieldDef) |}.

(** ** The log *)
Module tflog.

Inductive Level : Type := Trace | Debug | Info | Warn | Error.

#[global] Instance Level_eq_dec : EqDecision Level.
Proof. solve_decision. Defined.

(** A log call: its level and its message. *)
Definition Entry : Type := Level * string.

End tflog.

(** ** The field-level diff of [Update] (lines 297-348) *)

(** The local variables of [Update] that the diff reads and writes. *)
Record UpdateState : Type := {
  oldFieldDefinitionMap : gmap string MetaobjectFieldDefinitionModel;
  fieldDefinitions1stReq : list Operation;
  fieldDefinitions2ndReq : list Operation;
  recreateFieldDefinitions : list string;
  logged : list tflog.Entry
}.

(** Lines 297-300: the prior snapshot indexed by key; a later entry
    overwrites an earlier one of the same key. *)
Definition indexOld (oldFieldDefinitions : list MetaobjectFieldDefinitionModel)
    : gmap string MetaobjectFieldDefinitionModel :=
  foldl (λ m fieldDefinition, <[keyOf fieldDefinition := fieldDefinition]> m)
        ∅ oldFieldDefinitions.

(** Lines 302-304: the state before the loop over the desired snapshot. *)
Definition initState (oldFieldDefinitions : list MetaobjectFieldDefinitionModel)
    : UpdateState :=
  {| oldFieldDefinitionMap := indexOld oldFieldDefinitions;
     fieldDefinitions1stReq := [];
     fieldDefinitions2ndReq := [];
     recreateFieldDefinitions := [];
     logged := [] |}.

(** Lines 306-336: the body of the loop over the desired snapshot. *)
Definition diffStep (st : UpdateState) (newFieldDef : MetaobjectFieldDefinitionModel)
    : UpdateState :=
  match oldFieldDefinitionMap st !! keyOf newFieldDef with
  | Some oldFieldDef =>
      let remaining := delete (keyOf newFieldDef) (oldFieldDefinitionMap st) in
      if decide (oldFieldDef = newFieldDef) then
        {| oldFieldDefinitionMap := remaining;
           fieldDefinitions1stReq := fieldDefinitions1stReq st;
           fieldDefinitions2ndReq := fieldDefinitions2ndReq st;
           recreateFieldDefinitions := recreateFieldDefinitions st;
           logged := logged st |}
      else if negb (types.Equal (Type_ newFieldDef) (Type_ oldFieldDef)) then
        {| oldFieldDefinitionMap := remaining;
           fieldDefinitions1stReq :=
             fieldDefinitions1stReq st ++ [DeleteOp (keyOf oldFieldDef)];
           fieldDefinitions2ndReq :=
             fieldDefinitions2ndReq st
               ++ [CreateOp (convertMetaobjectFieldDefinitionModelToCreateInput newFieldDef)];
           recreateFieldDefinitions :=
             recreateFieldDefinitions st ++ [keyOf newFieldDef];
           logged := logged st |}
      else
        {| oldFieldDefinitionMap := remaining;
           fieldDefinitions1stReq :=
             fieldDefinitions1stReq st ++ [UpdateOp (updateInputOf newFieldDef)];
           fieldDefinitions2ndReq := fieldDefinitions2ndReq st;
           recreateFieldDefinitions := recreateFieldDefinitions st;
           logged := logged st |}
  | None =>
      {| oldFieldDefinitionMap := oldFieldDefinitionMap st;
         fieldDefinitions1stReq :=
           fieldDefinitions1stReq st
             ++ [CreateOp (convertMetaobjectFieldDefinitionModelToCreateInput newFieldDef)];
         fieldDefinitions2ndReq := fieldDefinitions2ndReq st;
         recreateFieldDefinitions := recreateFieldDefinitions st;
         logged := logged st |}
  end.

(** Lines 305-337: the loop over the desired snapshot, in its order. *)
Definition diffLoop (st : UpdateState)
    (newFieldDefinitions : list MetaobjectFieldDefinitionModel) : UpdateState :=
  foldl diffStep st newFieldDefinitions.

(** Lines 338-340: the notice that fields are recreated. *)
Definition warnRecreate (st : UpdateState) : UpdateState :=
  if decide (0 < length (recreateFieldDefinitions st)) then
    {| oldFieldDefinitionMap := oldFieldDefinitionMap st;
       fieldDefinitions1stReq := fieldDefinitions1stReq st;
       fieldDefinitions2ndReq := fieldDefinitions2ndReq st;
       recreateFieldDefinitions := recreateFieldDefinitions st;
       logged := logged st ++ [(tflog.Warn, EmptyString)] |}
  else st.

(** Lines 342-348: one delete per entry left in the map. Go leaves the order
    in which [range] visits a map unspecified; [rangeMap] is that order. *)
Definition deleteLeftover
    (rangeMap : gmap string MetaobjectFieldDefinitionModel →
                list MetaobjectFieldDefinitionModel)
    (st : UpdateState) : UpdateState :=
  foldl (λ acc oldFieldDef,
           {| oldFieldDefinitionMap := oldFieldDefinitionMap acc;
              fieldDefinitions1stReq :=
                fieldDefinitions1stReq acc ++ [DeleteOp (keyOf oldFieldDef)];
              fieldDefinitions2ndReq := fieldDefinitions2ndReq acc;
              recreateFieldDefinitions := recreateFieldDefinitions acc;
              logged := logged acc |})
        st (rangeMap (oldFieldDefinitionMap st)).

(** Lines 297-348 of [Update]: from the prior snapshot (the state's
    field definitions) and the desired one (the plan's), the operations of
    the first and of the second request, the recreated keys and the log. *)
Definition Update
    (rangeMap : gmap string MetaobjectFieldDefinitionModel →
                list MetaobjectFieldDefinitionModel)
    (oldFieldDefinitions newFieldDefinitions : list MetaobjectFieldDefinitionModel)
    : UpdateState :=
  deleteLeftover rangeMap
    (warnRecreate (diffLoop (initState oldFieldDefinitions) newFieldDefinitions)).

(** One admissible visiting order, used to run the model. *)
Definition rangeInKeyOrder (m : gmap string MetaobjectFieldDefinitionModel)
    : list MetaobjectFieldDefinitionModel :=
  (map_to_list m).*2.

(** The keys an operation names. *)
Definition opKeys (op : Operation) : list string :=
  (shopify.cKey <$> option_list (shopify.Create op))
    ++ (shopify.uKey <$> option_list (shopify.Update op))
    ++ (shopify.dKey <$> option_list (shopify.Delete op)).

Definition mentions (k : string) (op : Operation) : Prop := k ∈ opKeys op.

#[global] Instance mentions_dec k op : Decision (mentions k op).
Proof. unfold mentions. apply _. Defined.

(** ** Re-sorting the refreshed field definitions *)

Definition convertMetaobjectFieldDefinitionToModel
    (definition : shopify.MetaobjectFieldDefinition)
    (model : option MetaobjectFieldDefinitionModel)
    : MetaobjectFieldDefinitionModel :=
  let description :=
    match model with
    | Some model =>
        if decide (shopify.fDescription definition = EmptyString) then
          if types.IsNull (Description model) then types.StringNull
          else types.StringValue (shopify.fDescription definition)
        else types.StringValue (shopify.fDescription definition)
    | None => types.StringValue (shopify.fDescription definition)
    end in
  {| Key := types.StringValue (shopify.fKey definition);
     Name := types.StringValue (shopify.fName definition);
     Description := description;
     Type_ := types.StringValue (shopify.fType definition);
     Required := types.BoolValue (shopify.fRequired definition);
     Validations := convertValidationsToModels (shopify.fValidations definition) |}.

(** Lines 434-437: the index of each key of the plan's field definitions; a
    later entry overwrites an earlier one of the same key. *)
Definition orderMapOf (fieldDefinitions : list MetaobjectFieldDefinitionModel)
    : gmap string nat :=
  foldl (λ m entry, <[keyOf entry.2 := entry.1]> m) ∅ (imap pair fieldDefinitions).

(** Indexing a Go map of ints at a missing key yields 0. *)
Definition orderOf (fieldDefinitionOrderMap : gmap string nat) (key : string) : nat :=
  default 0 (fieldDefinitionOrderMap !! key).

(** Lines 438-440: the comparison handed to [sort.Slice]. *)
Definition lessByOrder (fieldDefinitionOrderMap : gmap string nat)
    (a b : MetaobjectFieldDefinitionModel) : bool :=
  bool_decide (orderOf fieldDefinitionOrderMap (keyOf a)
               < orderOf fieldDefinitionOrderMap (keyOf b)).

(** Lines 425-440 of [convertMetaobjectDefinitionToResourceModel]: the
    [FieldDefinitions] of the model it returns, from the field definitions
    of the remote definition and those of the plan or state [data].
    [FindBy] is the helper of package xslice and [sortSlice] is Go's
    [sort.Slice], both taken as they are used here. *)
Definition convertMetaobjectDefinitionToResourceModel
    (FindBy : list MetaobjectFieldDefinitionModel →
              (MetaobjectFieldDefinitionModel → bool) →
              option MetaobjectFieldDefinitionModel)
    (sortSlice : (MetaobjectFieldDefinitionModel → MetaobjectFieldDefinitionModel → bool) →
                 list MetaobjectFieldDefinitionModel →
                 list MetaobjectFieldDefinitionModel)
    (definitionFieldDefinitions : list shopify.MetaobjectFieldDefinition)
    (dataFieldDefinitions : list MetaobjectFieldDefinitionModel)
    : list MetaobjectFieldDefinitionModel :=
  let fieldDefinitionModels :=
    (λ fieldDefinition,
       convertMetaobjectFieldDefinitionToModel fieldDefinition
         (FindBy dataFieldDefinitions
                 (λ v, bool_decide (keyOf v = shopify.fKey fieldDefinition))))
      <$> definitionFieldDefinitions in
  let fieldDefinitionOrderMap := orderMapOf dataFieldDefinitions in
  sortSlice (lessByOrder fieldDefinitionOrderMap) fieldDefinitionModels.

(** What Go promises of the order in which [range] visits a map: every
    entry once, in some order. *)
Definition RangeOrder
    (rangeMap : gmap string MetaobjectFieldDefinitionModel →
                list MetaobjectFieldDefinitionModel) : Prop :=
  ∀ m, rangeMap m ≡ₚ (map_to_list m).*2.

(** [UpdateReturns prior desired r]: [r] is a state in which the diff of
    [Update] can end, under some visiting order of the leftover map. *)
Inductive UpdateReturns
    (oldFieldDefinitions newFieldDefinitions : list MetaobjectFieldDefinitionModel)
    : UpdateState → Prop :=
| UpdateReturns_intro rangeMap :
    RangeOrder rangeMap →
    UpdateReturns oldFieldDefinitions newFieldDefinitions
      (Update rangeMap oldFieldDefinitions newFieldDefinitions).

(** A comparison that [sort.Slice] accepts: a strict weak ordering. *)
Record StrictWeakOrdering {A : Type} (less : A → A → bool) : Prop := {
  swo_irrefl : ∀ x, less x x = false;
  swo_trans : ∀ x y z, less x y = true → less y z = true → less x z = true;
  swo_incomparable : ∀ x y z,
    less x y = false → less y x = false →
    less y z = false → less z y = false →
    less x z = false ∧ less z x = false
}.

(** What [sort.Slice] promises: the same elements, and no element less than
    one before it; it is not stable, so ties come in any order. *)
Definition SortsSlices {A : Type}
    (sortSlice : (A → A → bool) → list A → list A) : Prop :=
  ∀ less l,
    sortSlice less l ≡ₚ l ∧
    (StrictWeakOrdering less →
     StronglySorted (λ x y, less y x = false) (sortSlice less l)).

(** Two runnable instances: a merge sort for [sort.Slice] and the first
    match for [FindBy]. *)
Definition mergeSortSlice {A : Type} (less : A → A → bool) (l : list A) : list A :=
  @merge_sort A (λ x y, less y x = false) (λ x y, decide (less y x = false)) l.

Definition findFirst {A : Type} (l : list A) (p : A → bool) : option A :=
  head (filter (λ x, p x = true) l).

(** What a desired entry makes the loop emit when the map holds [old] under
    its key: the operations of the first request, those of the second, and
    the recreated keys. *)
Definition emitted (old : option MetaobjectFieldDefinitionModel)
    (newFieldDef : MetaobjectFieldDefinitionModel)
    : list Operation * list Operation * list string :=
  match old with
  | Some oldFieldDef =>
      if decide (oldFieldDef = newFieldDef) then ([], [], [])
      else if negb (types.Equal (Type_ newFieldDef) (Type_ oldFieldDef)) then
        ([DeleteOp (keyOf oldFieldDef)],
         [CreateOp (convertMetaobjectFieldDefinitionModelToCreateInput newFieldDef)],
         [keyOf newFieldDef])
      else ([UpdateOp (updateInputOf newFieldDef)], [], [])
  | None =>
      ([CreateOp (convertMetaobjectFieldDefinitionModelToCreateInput newFieldDef)], [], [])
  end.

Arguments emitted : simpl never.

(** A field definition for examples. *)
Definition exampleField (key type name : string) : MetaobjectFieldDefinitionModel :=
  {| Key := types.StringValue key; Name := types.StringValue name;
     Description := types.StringNull; Type_ := types.StringValue type;
     Required := types.BoolValue false; Validations := None |}.

(** A remote field definition for examples. *)
Definition exampleRemoteField (key type name : string) : shopify.MetaobjectFieldDefinition :=
  {| shopify.fKey := key; shopify.fName := name;
     shopify.fDescription := EmptyString; shopify.fType := type;
     shopify.fRequired := false; shopify.fValidations := [] |}.

(** ** The rest of the provider

    The other converters of the metaobject-definition resource, the
    metafield-definition resource and the settings of the provider. *)

(** [types.StringPointerValue]: null for nil, known otherwise. *)
Definition StringPointerValue (value : option string) : types.String :=
  match value with
  | None => types.StringNull
  | Some v => types.StringValue v
  end.

Definition IsUnknown (s : types.String) : bool :=
  match s with
  | types.StringUnknown => true
  | _ => false
  end.

(** A string that is neither null nor unknown. *)
Definition knownString (s : types.String) : bool :=
  negb (types.IsNull s) && negb (IsUnknown s).

Definition knownBool (b : types.Bool) : bool :=
  match b with
  | types.BoolValue _ => true
  | _ => false
  end.

(** *** Access settings *)

(** [shopify.MetaobjectAccess]. *)
Record MetaobjectAccess : Type := {
  aAdmin : string;
  aStorefront : string
}.

Record MetaobjectDefinitionAccessModel : Type := {
  Admin : types.String;
  Storefront : types.String
}.

#[global] Instance access_eq_dec : EqDecision MetaobjectAccess.
Proof. solve_decision. Defined.

#[global] Instance access_model_eq_dec : EqDecision MetaobjectDefinitionAccessModel.
Proof. solve_decision. Defined.

(** Lines 67-76. *)
Definition toShopifyModel (m : MetaobjectDefinitionAccessModel) : MetaobjectAccess :=
  let storefront := types.ValueString (Storefront m) in
  let storefront :=
    if decide (storefront = "LEGACY_LIQUID_ONLY"%string) then EmptyString
    else storefront in
  {| aAdmin := types.ValueString (Admin m); aStorefront := storefront |}.

(** Lines 461-466. *)
Definition convertAccessToModel (access : MetaobjectAccess)
    : MetaobjectDefinitionAccessModel :=
  {| Admin := types.StringValue (aAdmin access);
     Storefront := types.StringValue (aStorefront access) |}.

(** *** The display name key and the description of a definition *)

(** Lines 229-232 of [Create] and 350-353 of [Update]: the pointer sent as
    the display name key. *)
Definition displayNameKeyOf (DisplayNameKey : types.String) : option string :=
  if decide (types.ValueString DisplayNameKey ≠ EmptyString)
  then types.ValueStringPointer DisplayNameKey
  else None.

(** Lines 444-447: the description of the returned model, from the remote
    description and the one of the plan or state. *)
Definition definitionDescription (remoteDescription : string)
    (dataDescription : types.String) : types.String :=
  if decide (remoteDescription = EmptyString) then
    if types.IsNull dataDescription then types.StringNull
    else types.StringValue remoteDescription
  else types.StringValue remoteDescription.

(** Lines 224-227 of [Create]: the field definitions of the create input. *)
Definition Create_fieldDefinitions
    (fieldDefinitions : list MetaobjectFieldDefinitionModel)
    : list shopify.MetaobjectFieldDefinitionCreateInput :=
  foldl (λ shopifyFieldDefinitions fieldDefinitionModel,
           shopifyFieldDefinitions
             ++ [convertMetaobjectFieldDefinitionModelToCreateInput fieldDefinitionModel])
        [] fieldDefinitions.

(** *** Field definitions that come back as they were sent *)

Definition settledValidation (m : MetafieldDefinitionValidationModel) : bool :=
  knownString (ValidationName m) && knownString (ValidationValue m).

(** A validations slice that is nil, or not empty with known names and
    values. *)
Definition settledValidations
    (validations : option (list MetafieldDefinitionValidationModel)) : bool :=
  match validations with
  | None => true
  | Some l => negb (bool_decide (l = [])) && forallb settledValidation l
  end.

(** A field definition with a known key, name, type and required flag, a
    description that is not unknown, and settled validations. *)
Definition settledField (d : MetaobjectFieldDefinitionModel) : bool :=
  knownString (Key d) && knownString (Name d) && negb (IsUnknown (Description d))
  && knownString (Type_ d) && knownBool (Required d)
  && settledValidations (Validations d).

(** The remote field definition that holds what a create input carries, a
    nil string being held as the empty string (lines 442-443: the remote
    treats the two alike). *)
Definition storedFieldDefinition (input : shopify.MetaobjectFieldDefinitionCreateInput)
    : shopify.MetaobjectFieldDefinition :=
  {| shopify.fKey := shopify.cKey input;
     shopify.fName := default EmptyString (shopify.cName input);
     shopify.fDescription := default EmptyString (shopify.cDescription input);
     shopify.fType := shopify.cType input;
     shopify.fRequired := shopify.cRequired input;
     shopify.fValidations := shopify.cValidations input |}.

(** What the provider needs of [xslice.FindBy]: when exactly one element
    satisfies the predicate, that element is found. *)
Definition FindsTheOne {A : Type} (FindBy : list A → (A → bool) → option A) : Prop :=
  ∀ l p x, x ∈ l → p x = true → (∀ y, y ∈ l → p y = true → y = x) →
           FindBy l p = Some x.

(** *** The metafield-definition resource *)

Record MetafieldDefinitionResourceModel : Type := {
  mID : types.String;
  mName : types.String;
  mDescription : types.String;
  mOwnerType : types.String;
  mNamespace : types.String;
  mKey : types.String;
  mType : types.String;
  mPin : types.Bool;
  mValidations : option (list MetafieldDefinitionValidationModel)
}.

(** [shopify.MetafieldDefinition] ([Type.Name] is kept as [rType]). *)
Record MetafieldDefinition : Type := {
  rID : string;
  rName : string;
  rDescription : string;
  rOwnerType : string;
  rNamespace : string;
  rKey : string;
  rType : string;
  rPinnedPosition : option Z;
  rValidations : list shopify.MetafieldDefinitionValidation
}.

(** [shopify.MetafieldDefinitionInput]. *)
Record MetafieldDefinitionInput : Type := {
  iKey : string;
  iName : string;
  iDescription : string;
  iNamespace : string;
  iOwnerType : string;
  iType : string;
  iPin : bool;
  iValidations : list shopify.MetafieldDefinitionValidation
}.

#[global] Instance metafield_model_eq_dec : EqDecision MetafieldDefinitionResourceModel.
Proof. solve_decision. Defined.

(** Lines 161-170 of [MetafieldDefinitionResource.Create]. *)
Definition MetafieldDefinition_createInput (data : MetafieldDefinitionResourceModel)
    : MetafieldDefinitionInput :=
  {| iKey := types.ValueString (mKey data);
     iName := types.ValueString (mName data);
     iDescription := types.ValueString (mDescription data);
     iNamespace := types.ValueString (mNamespace data);
     iOwnerType := types.ValueString (mOwnerType data);
     iType := types.ValueString (mType data);
     iPin := types.ValueBool (mPin data);
     iValidations := convertValidationModelsToValidations (mValidations data) |}.

(** Lines 248-264. *)
Definition convertMetafieldDefinitionToResourceModel
    (definition : MetafieldDefinition) (state : MetafieldDefinitionResourceModel)
    : MetafieldDefinitionResourceModel :=
  let description :=
    if decide (String.length (rDescription definition) = 0) then
      if types.IsNull (mDescription state) then types.StringNull
      else types.StringValue (rDescription definition)
    else types.StringValue (rDescription definition) in
  {| mID := types.StringValue (rID definition);
     mName := types.StringValue (rName definition);
     mDescription := description;
     mOwnerType := types.StringValue (rOwnerType definition);
     mNamespace := types.StringValue (rNamespace definition);
     mKey := types.StringValue (rKey definition);
     mType := types.StringValue (rType definition);
     mPin := types.BoolValue (bool_decide (rPinnedPosition definition ≠ None));
     mValidations := convertValidationsToModels (rValidations definition) |}.

(** The remote metafield definition that holds what an input carries, under
    the identifier the remote gave it; it is pinned, at some position, when
    the input asks for it. *)
Definition storedMetafieldDefinition (id : string) (position : Z)
    (input : MetafieldDefinitionInput) : MetafieldDefinition :=
  {| rID := id;
     rName := iName input;
     rDescription := iDescription input;
     rOwnerType := iOwnerType input;
     rNamespace := iNamespace input;
     rKey := iKey input;
     rType := iType input;
     rPinnedPosition := if iPin input then Some position else None;
     rValidations := iValidations input |}.

(** A metafield definition of a plan whose attributes, the identifier
    apart, come back as they were sent. *)
Definition settledMetafield (data : MetafieldDefinitionResourceModel) : bool :=
  knownString (mName data) && negb (IsUnknown (mDescription data))
  && knownString (mOwnerType data) && knownString (mNamespace data)
  && knownString (mKey data) && knownString (mType data)
  && knownBool (mPin data) && settledValidations (mValidations data).

(** *** The settings of the provider *)

Record ShopifyProviderModel : Type := {
  Shop : types.String;
  APIVersion : types.String;
  APIKey : types.String;
  APISecretKey : types.String;
  AdminAPIAccessToken : types.String
}.

(** The function [readOrEnvDefault]; [Getenv] is [os.Getenv], which is
    the empty string for a variable that is not set. *)
Definition readOrEnvDefault (Getenv : string → string)
    (str : types.String) (envVarKey : string) : string :=
  if negb (types.IsNull str) then types.ValueString str
  else Getenv envVarKey.

(** An error diagnostic: its summary and its detail. *)
Record ErrorDiagnostic : Type := {
  Summary : string;
  Detail : string
}.

(** What [ShopifyProvider.Configure] hands to the client it builds. *)
Record ClientSettings : Type := {
  shop : string;
  apiVersion : string;
  apiKey : string;
  apiSecretKey : string;
  adminAPIAccessToken : string
}.

(** Lines 84-107 of [ShopifyProvider.Configure], after the configuration
    was read without error: the diagnostics, and the settings of the client
    when there is no error. *)
Definition ShopifyProvider_Configure (Getenv : string → string)
    (data : ShopifyProviderModel) : list ErrorDiagnostic * option ClientSettings :=
  let diagnostics := [] in
  let shop := readOrEnvDefault Getenv (Shop data) "SHOPIFY_SHOP" in
  let diagnostics :=
    if decide (shop = EmptyString) then
      diagnostics ++ [{| Summary := "Unable to find shop";
                         Detail := "shop cannot be an empty string" |}]
    else diagnostics in
  let apiVersion := readOrEnvDefault Getenv (APIVersion data) "SHOPIFY_API_VERSION" in
  let diagnostics :=
    if decide (apiVersion = EmptyString) then
      diagnostics ++ [{| Summary := "Unable to find api_version";
                         Detail := "api_version cannot be an empty string" |}]
    else diagnostics in
  let apiKey := readOrEnvDefault Getenv (APIKey data) "SHOPIFY_API_KEY" in
  let diagnostics :=
    if decide (apiKey = EmptyString) then
      diagnostics ++ [{| Summary := "Unable to find api_key";
                         Detail := "api_key cannot be an empty string" |}]
    else diagnostics in
  let apiSecretKey := readOrEnvDefault Getenv (APISecretKey data) "SHOPIFY_API_SECRET_KEY" in
  let diagnostics :=
    if decide (apiSecretKey = EmptyString) then
      diagnostics ++ [{| Summary := "Unable to find api_secret_key";
                         Detail := "api_secret_key cannot be an empty string" |}]
    else diagnostics in
  let adminAPIAccessToken :=
    readOrEnvDefault Getenv (AdminAPIAccessToken data) "SHOPIFY_ADMIN_API_ACCESS_TOKEN" in
  let diagnostics :=
    if decide (adminAPIAccessToken = EmptyString) then
      diagnostics ++ [{| Summary := "Unable to find admin_api_access_token";
                         Detail := "admin_api_access_token cannot be an empty string" |}]
    else diagnostics in
  if decide (0 < length diagnostics) then (diagnostics, None)
  else (diagnostics,
        Some {| shop := shop; apiVersion := apiVersion; apiKey := apiKey;
                apiSecretKey := apiSecretKey;
                adminAPIAccessToken := adminAPIAccessToken |}).

(** The five settings as [Configure] resolves them, in its order. *)
Definition resolvedSettings (Getenv : string → string) (data : ShopifyProviderModel)
    : list string :=
  [readOrEnvDefault Getenv (Shop data) "SHOPIFY_SHOP";
   readOrEnvDefault Getenv (APIVersion data) "SHOPIFY_API_VERSION";
   readOrEnvDefault Getenv (APIKey data) "SHOPIFY_API_KEY";
   readOrEnvDefault Getenv (APISecretKey data) "SHOPIFY_API_SECRET_KEY";
   readOrEnvDefault Getenv (AdminAPIAccessToken data) "SHOPIFY_ADMIN_API_ACCESS_TOKEN"].

(** ** The diff on slices of pointers

    The snapshots that [Update] receives are slices of pointers, and the
    framework decodes a null element of a list to a nil pointer. [Update]
    reads the key of every element without a nil check (lines 299 and 306),
    which panics on a nil pointer. *)

(** How a piece of Go code ends: it returns, or it panics. *)
Inductive Outcome (A : Type) : Type :=
| Returned (a : A)
| Panicked.

Arguments Returned {A} a.
Arguments Panicked {A}.

(** Reading through a pointer: a nil pointer panics. *)
Definition deref {A : Type} (pointer : option A) : Outcome A :=
  match pointer with
  | Some x => Returned x
  | None => Panicked
  end.

(** A [range] loop over a slice of pointers whose body first reads through
    the element and then runs [body] on the state; once an element has
    panicked, nothing more runs. *)
Definition rangeDeref {S A : Type} (body : S → A → S)
    (init : Outcome S) (pointers : list (option A)) : Outcome S :=
  foldl (λ acc pointer,
           match acc with
           | Returned s =>
               match deref pointer with
               | Returned x => Returned (body s x)
               | Panicked => Panicked
               end
           | Panicked => Panicked
           end)
        init pointers.

(** Lines 297-300 on a slice of pointers. *)
Definition indexOldPtr (oldFieldDefinitions : list (option MetaobjectFieldDefinitionModel))
    : Outcome (gmap string MetaobjectFieldDefinitionModel) :=
  rangeDeref (λ m fieldDefinition, <[keyOf fieldDefinition := fieldDefinition]> m)
             (Returned ∅) oldFieldDefinitions.

(** Lines 305-337 on a slice of pointers: [newFieldDef.Key] is read first,
    then the body is that of [diffStep]. *)
Definition diffLoopPtr (st : UpdateState)
    (newFieldDefinitions : list (option MetaobjectFieldDefinitionModel))
    : Outcome UpdateState :=
  rangeDeref diffStep (Returned st) newFieldDefinitions.

(** Lines 297-348 of [Update] on slices of pointers. *)
Definition UpdatePtr
    (rangeMap : gmap string MetaobjectFieldDefinitionModel →
                list MetaobjectFieldDefinitionModel)
    (oldFieldDefinitions newFieldDefinitions : list (option MetaobjectFieldDefinitionModel))
    : Outcome UpdateState :=
  match indexOldPtr oldFieldDefinitions with
  | Returned oldFieldDefinitionMap =>
      match diffLoopPtr {| oldFieldDefinitionMap := oldFieldDefinitionMap;
                           fieldDefinitions1stReq := [];
                           fieldDefinitions2ndReq := [];
                           recreateFieldDefinitions := [];
                           logged := [] |}
                        newFieldDefinitions with
      | Returned st => Returned (deleteLeftover rangeMap (warnRecreate st))
      | Panicked => Panicked
      end
  | Panicked => Panicked
  end.

(** Another admissible visiting order of a map, the reverse of
    [rangeInKeyOrder]. *)
Definition rangeInReverseKeyOrder (m : gmap string MetaobjectFieldDefinitionModel)
    : list MetaobjectFieldDefinitionModel :=
  reverse (map_to_list m).*2.

(** * Properties *)

(** Decidable side conditions on concrete snapshots are settled by
    evaluation. *)
Ltac by_computation := apply (bool_decide_unpack _); vm_compute; exact I.

Ltac differ := let H := fresh in intros H; vm_compute in H; discriminate H.

Section types_facts.

Lemma Equal_true (s o : types.String) : types.Equal s o = true ↔ s = o.
Proof.
  destruct s, o; simpl; try (split; [discriminate | congruence]); try done.
  rewrite bool_decide_eq_true. split; congruence.
Qed.

Lemma Equal_false (s o : types.String) : types.Equal s o = false ↔ s ≠ o.
Proof.
  rewrite <- Equal_true. destruct (types.Equal s o); split; congruence.
Qed.

End types_facts.

(** ** The index of the prior snapshot *)
Section index_facts.

Implicit Types (l : list MetaobjectFieldDefinitionModel).
Implicit Types (v : MetaobjectFieldDefinitionModel) (k : string).

Lemma indexOld_snoc l v :
  indexOld (l ++ [v]) = <[keyOf v := v]> (indexOld l).
Proof. unfold indexOld. by rewrite foldl_app. Qed.

Lemma indexOld_lookup_Some l k v :
  indexOld l !! k = Some v → keyOf v = k ∧ v ∈ l.
Proof.
  induction l as [|x l IH] using rev_ind; [done|].
  rewrite indexOld_snoc, lookup_insert. case_decide as Hk.
  - intros [= ->]. split; [done|]. set_solver.
  - intros [? ?]%IH. set_solver.
Qed.

Lemma indexOld_lookup_None l k :
  indexOld l !! k = None ↔ k ∉ keyOf <$> l.
Proof.
  induction l as [|x l IH] using rev_ind.
  - split; [set_solver | done].
  - rewrite indexOld_snoc, fmap_app, lookup_insert_None, IH. set_solver.
Qed.

Lemma indexOld_lookup_NoDup l v :
  NoDup (keyOf <$> l) → v ∈ l → indexOld l !! keyOf v = Some v.
Proof.
  induction l as [|x l IH] using rev_ind; [set_solver|].
  rewrite fmap_app, NoDup_app. intros (Hl & Hx & _) Hv.
  rewrite indexOld_snoc, lookup_insert. case_decide as Hk.
  - apply elem_of_app in Hv as [Hv| ->%list_elem_of_singleton]; [|done].
    exfalso. apply (Hx (keyOf v)); [|set_solver].
    apply list_elem_of_fmap. eauto.
  - apply IH; [done|]. set_solver.
Qed.

Lemma indexOld_to_list l :
  NoDup (keyOf <$> l) → (map_to_list (indexOld l)).*2 ≡ₚ l.
Proof.
  induction l as [|x l IH] using rev_ind.
  - intros _. unfold indexOld. simpl. by rewrite map_to_list_empty.
  - rewrite fmap_app, NoDup_app. intros (Hl & Hx & _).
    rewrite indexOld_snoc, map_to_list_insert.
    + rewrite fmap_cons, IH by done. simpl.
      by rewrite <- Permutation_cons_append.
    + apply indexOld_lookup_None. intros Hin. apply (Hx _ Hin). set_solver.
Qed.

End index_facts.

(** ** The loop over the desired snapshot *)
Section loop_facts.

Implicit Types (st : UpdateState) (d : MetaobjectFieldDefinitionModel).
Implicit Types (ds : list MetaobjectFieldDefinitionModel) (k : string).

Lemma diffStep_emitted st d :
  diffStep st d =
  {| oldFieldDefinitionMap := delete (keyOf d) (oldFieldDefinitionMap st);
     fieldDefinitions1stReq :=
       fieldDefinitions1stReq st
         ++ (emitted (oldFieldDefinitionMap st !! keyOf d) d).1.1;
     fieldDefinitions2ndReq :=
       fieldDefinitions2ndReq st
         ++ (emitted (oldFieldDefinitionMap st !! keyOf d) d).1.2;
     recreateFieldDefinitions :=
       recreateFieldDefinitions st
         ++ (emitted (oldFieldDefinitionMap st !! keyOf d) d).2;
     logged := logged st |}.
Proof.
  unfold diffStep, emitted.
  destruct (oldFieldDefinitionMap st !! keyOf d) as [old|] eqn:Hold.
  - case_decide; [|destruct (negb _)]; simpl; by rewrite ?app_nil_r.
  - simpl. by rewrite delete_id, !app_nil_r.
Qed.

Lemma diffLoop_cons st d ds :
  diffLoop st (d :: ds) = diffLoop (diffStep st d) ds.
Proof. done. Qed.

Lemma diffLoop_logged st ds : logged (diffLoop st ds) = logged st.
Proof.
  revert st. induction ds as [|d ds IH]; intros st; [done|].
  by rewrite diffLoop_cons, IH, diffStep_emitted.
Qed.

Lemma diffLoop_map st ds k :
  oldFieldDefinitionMap (diffLoop st ds) !! k =
  if decide (k ∈ keyOf <$> ds) then None else oldFieldDefinitionMap st !! k.
Proof.
  revert st. induction ds as [|d ds IH]; intros st.
  - done.
  - rewrite diffLoop_cons, IH, diffStep_emitted. simpl.
    rewrite lookup_delete.
    repeat case_decide; try done; set_solver.
Qed.

(** With unique keys in the desired snapshot, every entry is compared
    with what the map held under its key before the loop. *)
Lemma diffLoop_emitted st ds :
  NoDup (keyOf <$> ds) →
  fieldDefinitions1stReq (diffLoop st ds) =
    fieldDefinitions1stReq st
      ++ (ds ≫= λ d, (emitted (oldFieldDefinitionMap st !! keyOf d) d).1.1)
  ∧ fieldDefinitions2ndReq (diffLoop st ds) =
    fieldDefinitions2ndReq st
      ++ (ds ≫= λ d, (emitted (oldFieldDefinitionMap st !! keyOf d) d).1.2)
  ∧ recreateFieldDefinitions (diffLoop st ds) =
    recreateFieldDefinitions st
      ++ (ds ≫= λ d, (emitted (oldFieldDefinitionMap st !! keyOf d) d).2).
Proof.
  revert st. induction ds as [|d ds IH]; intros st.
  - intros _. simpl. by rewrite !app_nil_r.
  - rewrite fmap_cons, NoDup_cons. intros [Hd Hds].
    rewrite diffLoop_cons.
    destruct (IH (diffStep st d) Hds) as (-> & -> & ->).
    rewrite diffStep_emitted. simpl. rewrite <- !app_assoc.
    assert (∀ d', d' ∈ ds →
              delete (keyOf d) (oldFieldDefinitionMap st) !! keyOf d'
              = oldFieldDefinitionMap st !! keyOf d') as Hext.
    { intros d' Hd'. apply lookup_delete_ne. intros Heq. apply Hd.
      rewrite Heq. apply list_elem_of_fmap. eauto. }
    repeat split; f_equal; f_equal; apply Forall_bind_ext, Forall_forall;
      intros d' Hd'; by rewrite Hext.
Qed.

End loop_facts.

(** ** The notice and the deletes of the leftover entries *)
Section tail_facts.

Implicit Types (st : UpdateState).

Lemma warnRecreate_requests st :
  oldFieldDefinitionMap (warnRecreate st) = oldFieldDefinitionMap st
  ∧ fieldDefinitions1stReq (warnRecreate st) = fieldDefinitions1stReq st
  ∧ fieldDefinitions2ndReq (warnRecreate st) = fieldDefinitions2ndReq st
  ∧ recreateFieldDefinitions (warnRecreate st) = recreateFieldDefinitions st.
Proof. unfold warnRecreate. by case_decide. Qed.

Lemma warnRecreate_logged st :
  logged (warnRecreate st) =
  logged st ++ match recreateFieldDefinitions st with
               | [] => []
               | _ :: _ => [(tflog.Warn, EmptyString)]
               end.
Proof.
  unfold warnRecreate.
  destruct (recreateFieldDefinitions st); simpl; [by rewrite app_nil_r | done].
Qed.

Lemma deleteLeftover_requests rangeMap st :
  fieldDefinitions1stReq (deleteLeftover rangeMap st) =
    fieldDefinitions1stReq st
      ++ ((DeleteOp ∘ keyOf) <$> rangeMap (oldFieldDefinitionMap st))
  ∧ fieldDefinitions2ndReq (deleteLeftover rangeMap st) = fieldDefinitions2ndReq st
  ∧ recreateFieldDefinitions (deleteLeftover rangeMap st) = recreateFieldDefinitions st
  ∧ logged (deleteLeftover rangeMap st) = logged st.
Proof.
  unfold deleteLeftover.
  generalize (rangeMap (oldFieldDefinitionMap st)) as l.
  intros l. revert st. induction l as [|x l IH]; intros st; simpl.
  - by rewrite app_nil_r.
  - destruct (IH {| oldFieldDefinitionMap := oldFieldDefinitionMap st;
                    fieldDefinitions1stReq :=
                      fieldDefinitions1stReq st ++ [DeleteOp (keyOf x)];
                    fieldDefinitions2ndReq := fieldDefinitions2ndReq st;
                    recreateFieldDefinitions := recreateFieldDefinitions st;
                    logged := logged st |}) as (-> & -> & -> & ->).
    simpl. by rewrite <- app_assoc.
Qed.

(** [Update] in terms of the state after the loop. *)
Lemma Update_unfold rangeMap prior desired :
  let loop := diffLoop (initState prior) desired in
  fieldDefinitions1stReq (Update rangeMap prior desired) =
    fieldDefinitions1stReq loop
      ++ ((DeleteOp ∘ keyOf) <$> rangeMap (oldFieldDefinitionMap loop))
  ∧ fieldDefinitions2ndReq (Update rangeMap prior desired) = fieldDefinitions2ndReq loop
  ∧ recreateFieldDefinitions (Update rangeMap prior desired) = recreateFieldDefinitions loop
  ∧ logged (Update rangeMap prior desired) =
      match recreateFieldDefinitions loop with
      | [] => []
      | _ :: _ => [(tflog.Warn, EmptyString)]
      end.
Proof.
  intros loop. unfold Update. fold loop.
  destruct (deleteLeftover_requests rangeMap (warnRecreate loop)) as (-> & -> & -> & ->).
  destruct (warnRecreate_requests loop) as (-> & -> & -> & ->).
  rewrite warnRecreate_logged.
  replace (logged loop) with (@nil tflog.Entry); [done|].
  unfold loop. by rewrite diffLoop_logged.
Qed.

(** The leftover map visited: its entries are those of the prior
    snapshot whose key the desired snapshot does not have. *)
Lemma leftover_lookup prior desired k v :
  oldFieldDefinitionMap (diffLoop (initState prior) desired) !! k = Some v →
  keyOf v = k ∧ v ∈ prior ∧ k ∉ keyOf <$> desired.
Proof.
  rewrite diffLoop_map. case_decide; [done|].
  simpl. intros [? ?]%indexOld_lookup_Some. done.
Qed.

Lemma RangeOrder_elem_of rangeMap m v :
  RangeOrder rangeMap → v ∈ rangeMap m → ∃ k, m !! k = Some v.
Proof.
  intros Hrange. rewrite (Hrange m).
  intros ([k v'] & -> & Hkv)%list_elem_of_fmap.
  exists k. by apply elem_of_map_to_list.
Qed.

Lemma RangeOrder_empty rangeMap : RangeOrder rangeMap → rangeMap ∅ = [].
Proof.
  intros Hrange. apply Permutation_nil_r.
  by rewrite (Hrange ∅), map_to_list_empty.
Qed.

Lemma rangeInKeyOrder_RangeOrder : RangeOrder rangeInKeyOrder.
Proof. by intros m. Qed.

End tail_facts.

Section list_facts.

Context {A : Type} (P : A → Prop) `{!∀ x, Decision (P x)}.

Lemma filter_Forall_id (l : list A) : Forall P l → filter P l = l.
Proof.
  induction 1 as [|x l Hx _ IH]; [done|].
  by rewrite filter_cons_True, IH.
Qed.

Lemma filter_Forall_nil (l : list A) : Forall (λ x, ¬ P x) l → filter P l = [].
Proof.
  induction 1 as [|x l Hx _ IH]; [done|].
  by rewrite filter_cons_False.
Qed.

End list_facts.

Lemma bind_all_nil {A B : Type} (f : A → list B) (l : list A) :
  (∀ x, x ∈ l → f x = []) → l ≫= f = [].
Proof.
  induction l as [|x l IH]; intros Hf; [done|].
  rewrite bind_cons, Hf, IH; [done| |]; set_solver.
Qed.

(** ** Results of the diff *)
Section diff_results.

Implicit Types (prior desired : list MetaobjectFieldDefinitionModel).
Implicit Types (r : UpdateState).

Lemma diffLoop_empty_map st desired :
  oldFieldDefinitionMap st = ∅ →
  oldFieldDefinitionMap (diffLoop st desired) = ∅
  ∧ fieldDefinitions1stReq (diffLoop st desired) =
      fieldDefinitions1stReq st
        ++ ((CreateOp ∘ convertMetaobjectFieldDefinitionModelToCreateInput) <$> desired)
  ∧ fieldDefinitions2ndReq (diffLoop st desired) = fieldDefinitions2ndReq st
  ∧ recreateFieldDefinitions (diffLoop st desired) = recreateFieldDefinitions st.
Proof.
  revert st. induction desired as [|d ds IH]; intros st Hst.
  - simpl. by rewrite app_nil_r.
  - rewrite diffLoop_cons.
    assert (oldFieldDefinitionMap (diffStep st d) = ∅) as Hstep.
    { rewrite diffStep_emitted. simpl. by rewrite Hst, delete_empty. }
    destruct (IH (diffStep st d) Hstep) as (-> & -> & -> & ->).
    rewrite diffStep_emitted. simpl. rewrite Hst, lookup_empty. simpl.
    by rewrite <- app_assoc, !app_nil_r.
Qed.

(** C4. With an empty prior snapshot, the first request holds one Create
    per desired entry, in the desired order, the second request is empty
    and no key is recreated. The keys of the desired snapshot need not
    even be unique. *)
Theorem Update_empty_prior desired r :
  UpdateReturns [] desired r →
  fieldDefinitions1stReq r =
    (CreateOp ∘ convertMetaobjectFieldDefinitionModelToCreateInput) <$> desired
  ∧ fieldDefinitions2ndReq r = []
  ∧ recreateFieldDefinitions r = [].
Proof.
  intros [rangeMap Hrange].
  destruct (Update_unfold rangeMap [] desired) as (-> & -> & -> & _).
  destruct (diffLoop_empty_map (initState []) desired eq_refl) as (-> & -> & -> & ->).
  simpl. by rewrite (RangeOrder_empty _ Hrange), app_nil_r.
Qed.

(** C5. With an empty desired snapshot and unique keys in the prior one,
    the first request is one Delete per prior entry (in the order the map
    is visited) and nothing else; the second request is empty and no key
    is recreated. *)
Theorem Update_empty_desired prior r :
  NoDup (keyOf <$> prior) →
  UpdateReturns prior [] r →
  fieldDefinitions1stReq r ≡ₚ (DeleteOp ∘ keyOf) <$> prior
  ∧ fieldDefinitions2ndReq r = []
  ∧ recreateFieldDefinitions r = [].
Proof.
  intros Hprior [rangeMap Hrange].
  destruct (Update_unfold rangeMap prior []) as (-> & -> & -> & _).
  simpl. repeat split.
  by rewrite (Hrange (indexOld prior)), indexOld_to_list.
Qed.

(** C3. When the desired snapshot holds the same field definitions as the
    prior one, in any order, and keys are unique, both requests are empty,
    no key is recreated and nothing is logged. *)
Theorem Update_idempotent prior desired r :
  NoDup (keyOf <$> prior) →
  desired ≡ₚ prior →
  UpdateReturns prior desired r →
  fieldDefinitions1stReq r = []
  ∧ fieldDefinitions2ndReq r = []
  ∧ recreateFieldDefinitions r = []
  ∧ logged r = [].
Proof.
  intros Hprior Hperm [rangeMap Hrange].
  assert (NoDup (keyOf <$> desired)) as Hdesired by by rewrite Hperm.
  destruct (Update_unfold rangeMap prior desired) as (-> & -> & -> & ->).
  destruct (diffLoop_emitted (initState prior) desired Hdesired) as (-> & -> & ->).
  assert (∀ d, d ∈ desired →
            emitted (oldFieldDefinitionMap (initState prior) !! keyOf d) d
            = ([], [], [])) as Hnone.
  { intros d Hd. simpl. rewrite indexOld_lookup_NoDup; [|done|by rewrite <- Hperm].
    unfold emitted. by rewrite decide_True. }
  assert (oldFieldDefinitionMap (diffLoop (initState prior) desired) = ∅) as ->.
  { apply map_eq. intros k. rewrite diffLoop_map, lookup_empty.
    case_decide as Hk; [done|]. simpl. apply indexOld_lookup_None.
    by rewrite <- Hperm. }
  rewrite (RangeOrder_empty _ Hrange). simpl.
  rewrite !bind_all_nil; [done|intros d Hd; by rewrite Hnone..].
Qed.

(** C9. Whenever a key is recreated, the diff logs exactly one entry, a
    warning, and its message is the empty string. *)
Theorem Update_warns_with_empty_message prior desired r :
  UpdateReturns prior desired r →
  recreateFieldDefinitions r ≠ [] →
  logged r = [(tflog.Warn, EmptyString)].
Proof.
  intros [rangeMap Hrange].
  destruct (Update_unfold rangeMap prior desired) as (_ & _ & -> & ->).
  by destruct (recreateFieldDefinitions _).
Qed.

(** What one desired entry adds to the second request and to the
    recreated keys comes from the same entries. *)
Lemma emitted_recreate old d :
  ∃ recreated,
    (emitted old d).1.2 =
      (CreateOp ∘ convertMetaobjectFieldDefinitionModelToCreateInput) <$> recreated
    ∧ (emitted old d).2 = keyOf <$> recreated
    ∧ recreated `sublist_of` [d].
Proof.
  unfold emitted. destruct old as [old|].
  - case_decide; [|destruct (negb _)].
    + exists []. by repeat split; [..|apply sublist_nil_l].
    + by exists [d].
    + exists []. by repeat split; [..|apply sublist_nil_l].
  - exists []. by repeat split; [..|apply sublist_nil_l].
Qed.

Lemma diffLoop_recreate st desired :
  ∃ recreated,
    fieldDefinitions2ndReq (diffLoop st desired) =
      fieldDefinitions2ndReq st
        ++ ((CreateOp ∘ convertMetaobjectFieldDefinitionModelToCreateInput) <$> recreated)
    ∧ recreateFieldDefinitions (diffLoop st desired) =
      recreateFieldDefinitions st ++ (keyOf <$> recreated)
    ∧ recreated `sublist_of` desired.
Proof.
  revert st. induction desired as [|d ds IH]; intros st.
  - exists []. simpl. by rewrite !app_nil_r.
  - rewrite diffLoop_cons.
    destruct (IH (diffStep st d)) as (rest & -> & -> & Hrest).
    rewrite diffStep_emitted. simpl.
    destruct (emitted_recreate (oldFieldDefinitionMap st !! keyOf d) d)
      as (first & -> & -> & Hfirst).
    exists (first ++ rest). rewrite !fmap_app, <- !app_assoc.
    repeat split. by apply (sublist_app first [d] rest ds).
Qed.

(** C10. The second request holds only Creates, it is as long as the list
    of recreated keys, and the key of its i-th Create is the i-th
    recreated key. *)
Theorem Update_second_request_pairs_recreate prior desired r :
  UpdateReturns prior desired r →
  Forall (λ op, ∃ input, op = CreateOp input) (fieldDefinitions2ndReq r)
  ∧ length (fieldDefinitions2ndReq r) = length (recreateFieldDefinitions r)
  ∧ ∀ i op, fieldDefinitions2ndReq r !! i = Some op →
      ∃ input, shopify.Create op = Some input
               ∧ recreateFieldDefinitions r !! i = Some (shopify.cKey input).
Proof.
  intros [rangeMap Hrange].
  destruct (Update_unfold rangeMap prior desired) as (_ & -> & -> & _).
  destruct (diffLoop_recreate (initState prior) desired) as (recreated & -> & -> & _).
  simpl. repeat split.
  - apply Forall_fmap, Forall_forall. intros d _. by eexists.
  - by rewrite !length_fmap.
  - intros i op. rewrite !list_lookup_fmap.
    destruct (recreated !! i) as [d|]; [|done].
    intros [= <-]. by eexists.
Qed.

(** Two runs of the diff on the same snapshots, whatever the order in which
    each visits the leftover map, agree on everything but the order of the
    deletes at the end of the first request. *)
Lemma Update_orders_agree rangeMap rangeMap' prior desired :
  RangeOrder rangeMap → RangeOrder rangeMap' →
  fieldDefinitions1stReq (Update rangeMap' prior desired)
    ≡ₚ fieldDefinitions1stReq (Update rangeMap prior desired)
  ∧ fieldDefinitions2ndReq (Update rangeMap' prior desired)
    = fieldDefinitions2ndReq (Update rangeMap prior desired)
  ∧ recreateFieldDefinitions (Update rangeMap' prior desired)
    = recreateFieldDefinitions (Update rangeMap prior desired)
  ∧ logged (Update rangeMap' prior desired) = logged (Update rangeMap prior desired).
Proof.
  intros Hrange Hrange'.
  destruct (Update_unfold rangeMap prior desired) as (-> & -> & -> & ->).
  destruct (Update_unfold rangeMap' prior desired) as (-> & -> & -> & ->).
  repeat split.
  by rewrite (Hrange _), (Hrange' _).
Qed.

(** Everything a desired entry emits names the key of that entry. *)
Lemma emitted_keys old d :
  (∀ v, old = Some v → keyOf v = keyOf d) →
  Forall (λ op, opKeys op = [keyOf d]) (emitted old d).1.1
  ∧ Forall (λ op, opKeys op = [keyOf d]) (emitted old d).1.2
  ∧ Forall (λ k, [k] = [keyOf d]) (emitted old d).2
  ∧ length (emitted old d).1.1 ≤ 1.
Proof.
  intros Hold. unfold emitted. destruct old as [old|].
  - specialize (Hold old eq_refl).
    case_decide; [|destruct (negb _)]; simpl;
      repeat split; repeat constructor; by rewrite ?Hold.
  - simpl. repeat split; repeat constructor.
Qed.

(** In a list built entry by entry from a snapshot with unique keys, the
    items naming the key of an entry are those built from that entry. *)
Lemma filter_bind_unique {B : Type} (keysOf : B → list string)
    (f : MetaobjectFieldDefinitionModel → list B) desired d :
  NoDup (keyOf <$> desired) →
  d ∈ desired →
  (∀ d', d' ∈ desired → Forall (λ y, keysOf y = [keyOf d']) (f d')) →
  filter (λ y, keyOf d ∈ keysOf y) (desired ≫= f) = f d.
Proof.
  induction desired as [|x ds IH]; [set_solver|].
  rewrite fmap_cons, NoDup_cons. intros [Hx Hds] Hd Hf.
  rewrite bind_cons, filter_app.
  assert (∀ d', d' ∈ ds → keyOf d' ≠ keyOf x) as Hne.
  { intros d' Hd' Heq. apply Hx. rewrite <- Heq. by apply list_elem_of_fmap_2. }
  apply elem_of_cons in Hd as [->|Hd].
  - rewrite filter_Forall_id, filter_Forall_nil; [by rewrite app_nil_r| |].
    + apply Forall_bind, Forall_forall. intros d' Hd'.
      eapply Forall_impl; [apply Hf; set_solver|].
      intros y -> ?%list_elem_of_singleton. by eapply Hne.
    + eapply Forall_impl; [apply Hf; set_solver|].
      intros y ->. set_solver.
  - rewrite filter_Forall_nil, IH; [done..| |].
    + intros d' Hd'. apply Hf. set_solver.
    + eapply Forall_impl; [apply Hf; set_solver|].
      intros y -> ?%list_elem_of_singleton. by eapply Hne.
Qed.

(** The deletes of the leftover entries name no key of the desired
    snapshot. *)
Lemma leftover_deletes_other_keys rangeMap prior desired k :
  RangeOrder rangeMap →
  k ∈ keyOf <$> desired →
  filter (mentions k)
    ((DeleteOp ∘ keyOf)
       <$> rangeMap (oldFieldDefinitionMap (diffLoop (initState prior) desired)))
  = [].
Proof.
  intros Hrange Hk. apply filter_Forall_nil, Forall_fmap, Forall_forall.
  intros v [k' Hv]%(RangeOrder_elem_of _ _ _ Hrange).
  apply leftover_lookup in Hv as (<- & _ & Hk').
  unfold mentions. simpl. set_solver.
Qed.

(** With unique keys, what both requests and the recreated keys hold for
    the key of a desired entry [d] that the prior snapshot has as [p]. *)
Lemma Update_at_key prior desired p d r :
  NoDup (keyOf <$> prior) →
  NoDup (keyOf <$> desired) →
  p ∈ prior → d ∈ desired → keyOf p = keyOf d →
  UpdateReturns prior desired r →
  filter (mentions (keyOf d)) (fieldDefinitions1stReq r) = (emitted (Some p) d).1.1
  ∧ filter (mentions (keyOf d)) (fieldDefinitions2ndReq r) = (emitted (Some p) d).1.2
  ∧ filter (eq (keyOf d)) (recreateFieldDefinitions r) = (emitted (Some p) d).2.
Proof.
  intros Hprior Hdesired Hp Hd Hkey [rangeMap Hrange].
  destruct (Update_unfold rangeMap prior desired) as (-> & -> & -> & _).
  destruct (diffLoop_emitted (initState prior) desired Hdesired) as (-> & -> & ->).
  simpl.
  assert (indexOld prior !! keyOf d = Some p) as Hold.
  { rewrite <- Hkey. by apply indexOld_lookup_NoDup. }
  assert (∀ d' v, indexOld prior !! keyOf d' = Some v → keyOf v = keyOf d') as Hinv.
  { by intros d' v [? _]%indexOld_lookup_Some. }
  rewrite filter_app, leftover_deletes_other_keys, app_nil_r;
    [|done|by apply list_elem_of_fmap_2].
  rewrite <- Hold. repeat split.
  - apply (filter_bind_unique opKeys); [done..|].
    intros d' _. apply (emitted_keys _ d' (Hinv d')).
  - apply (filter_bind_unique opKeys); [done..|].
    intros d' _. apply (emitted_keys _ d' (Hinv d')).
  - etrans;
      [|apply (filter_bind_unique (λ k, [k])
                 (λ d', (emitted (indexOld prior !! keyOf d') d').2) desired d);
        [done..|]].
    + apply list_filter_iff. set_solver.
    + intros d' _. apply (emitted_keys _ d' (Hinv d')).
Qed.


(** C6. With unique keys, when the prior and the desired snapshot share a
    key whose entries have the same type and differ elsewhere, the first
    request names that key in exactly one operation, the Update built from
    the desired entry, and the second request does not name it; the key is
    not recreated. *)
Theorem Update_attribute_change prior desired p d r :
  NoDup (keyOf <$> prior) →
  NoDup (keyOf <$> desired) →
  p ∈ prior → d ∈ desired → keyOf p = keyOf d →
  Type_ p = Type_ d →
  p ≠ d →
  UpdateReturns prior desired r →
  filter (mentions (keyOf d)) (fieldDefinitions1stReq r) = [UpdateOp (updateInputOf d)]
  ∧ filter (mentions (keyOf d)) (fieldDefinitions2ndReq r) = []
  ∧ filter (eq (keyOf d)) (recreateFieldDefinitions r) = [].
Proof.
  intros Hprior Hdesired Hp Hd Hkey Htype Hne Hr.
  destruct (Update_at_key prior desired p d r) as (-> & -> & ->); [done..|].
  unfold emitted. rewrite decide_False by done.
  assert (types.Equal (Type_ d) (Type_ p) = true) as ->.
  { by apply Equal_true. }
  done.
Qed.

(** The keys named by a list built entry by entry, at most one item per
    entry, come in the order of the entries. *)
Lemma bind_keys_sublist {B : Type} (keysOf : B → list string)
    (f : MetaobjectFieldDefinitionModel → list B) desired :
  (∀ d, d ∈ desired → Forall (λ y, keysOf y = [keyOf d]) (f d)) →
  (∀ d, d ∈ desired → length (f d) ≤ 1) →
  (desired ≫= f) ≫= keysOf `sublist_of` keyOf <$> desired.
Proof.
  induction desired as [|d ds IH]; intros Hkeys Hlen; [done|].
  rewrite bind_cons, bind_app, fmap_cons.
  apply (sublist_app _ [keyOf d] _ (keyOf <$> ds)).
  - specialize (Hkeys d ltac:(set_solver)). specialize (Hlen d ltac:(set_solver)).
    destruct (f d) as [|y [|z l]]; simpl in *; [apply sublist_nil_l| |lia].
    apply Forall_cons in Hkeys as [Hy _].
    by rewrite app_nil_r, Hy.
  - apply IH; intros d' Hd'; [apply Hkeys|apply Hlen]; set_solver.
Qed.

(** With unique keys in the prior snapshot, the entries left in the map
    after the loop are the prior entries whose key the desired snapshot
    does not have. *)
Lemma leftover_to_list rangeMap prior desired :
  NoDup (keyOf <$> prior) →
  RangeOrder rangeMap →
  rangeMap (oldFieldDefinitionMap (diffLoop (initState prior) desired))
  ≡ₚ filter (λ p, keyOf p ∉ keyOf <$> desired) prior.
Proof.
  intros Hprior Hrange. rewrite (Hrange _).
  set (kept := filter (λ p, keyOf p ∉ keyOf <$> desired) prior).
  assert (NoDup (keyOf <$> kept)) as Hkept.
  { eapply sublist_NoDup; [done|]. apply fmap_sublist, sublist_filter. }
  rewrite <- (indexOld_to_list kept Hkept). do 2 f_equiv.
  apply map_eq. intros k. apply option_eq. intros v.
  rewrite diffLoop_map. simpl. split.
  - case_decide as Hk; [done|].
    intros [<- Hv]%indexOld_lookup_Some.
    apply indexOld_lookup_NoDup; [done|]. by apply list_elem_of_filter.
  - intros [<- [Hk Hv]%list_elem_of_filter]%indexOld_lookup_Some.
    rewrite decide_False by done. by apply indexOld_lookup_NoDup.
Qed.

(** C2. With unique keys in both snapshots, the first request is what the
    loop over the desired snapshot emitted, entry by entry in the desired
    order, followed by the deletes of the prior entries whose key the
    desired snapshot does not have (in the order the map is visited). The
    keys named by the operations of the loop, by the second request and
    by the list of recreated keys each come in the order of the desired
    snapshot. *)
Theorem Update_order prior desired r :
  NoDup (keyOf <$> prior) →
  NoDup (keyOf <$> desired) →
  UpdateReturns prior desired r →
  ∃ phase removal,
    fieldDefinitions1stReq r = phase ++ removal
    ∧ phase = fieldDefinitions1stReq (diffLoop (initState prior) desired)
    ∧ phase = desired ≫= (λ d, (emitted (indexOld prior !! keyOf d) d).1.1)
    ∧ phase ≫= opKeys `sublist_of` keyOf <$> desired
    ∧ removal ≡ₚ (DeleteOp ∘ keyOf)
                   <$> filter (λ p, keyOf p ∉ keyOf <$> desired) prior
    ∧ fieldDefinitions2ndReq r ≫= opKeys `sublist_of` keyOf <$> desired
    ∧ recreateFieldDefinitions r `sublist_of` keyOf <$> desired.
Proof.
  intros Hprior Hdesired [rangeMap Hrange].
  destruct (Update_unfold rangeMap prior desired) as (-> & -> & -> & _).
  do 2 eexists. split; [done|]. split; [done|].
  assert (∀ d v, indexOld prior !! keyOf d = Some v → keyOf v = keyOf d) as Hinv.
  { by intros d v [? _]%indexOld_lookup_Some. }
  destruct (diffLoop_emitted (initState prior) desired Hdesired) as (-> & _ & _).
  destruct (diffLoop_recreate (initState prior) desired) as (recreated & -> & -> & Hsub).
  simpl. repeat split.
  - apply (bind_keys_sublist opKeys); intros d _;
      apply (emitted_keys _ d (Hinv d)).
  - by rewrite leftover_to_list.
  - replace (((CreateOp ∘ convertMetaobjectFieldDefinitionModelToCreateInput)
                <$> recreated) ≫= opKeys)
      with (keyOf <$> recreated); [by apply fmap_sublist|].
    clear Hsub. induction recreated as [|d ds IH]; [done|].
    rewrite !fmap_cons, bind_cons, <- IH. done.
  - by apply fmap_sublist.
Qed.

End diff_results.

(** ** The re-sorting of the refreshed field definitions *)
Section sort_results.

Implicit Types (data : list MetaobjectFieldDefinitionModel).

Lemma StronglySorted_lookup {A : Type} (R : relation A) (l : list A) i j x y :
  StronglySorted R l → l !! i = Some x → l !! j = Some y → i < j → R x y.
Proof.
  intros Hl. revert i j. induction Hl as [|z l _ IH Hz]; intros i j; [done|].
  destruct i as [|i], j as [|j]; simpl; try lia.
  - intros [= ->] Hy _. rewrite Forall_forall in Hz.
    apply Hz. by eapply list_elem_of_lookup_2.
  - intros Hx Hy Hij. apply (IH i j); [done..|lia].
Qed.

Lemma StronglySorted_from_lookup {A : Type} (R : relation A) (l : list A) :
  (∀ i j x y, l !! i = Some x → l !! j = Some y → i < j → R x y) →
  StronglySorted R l.
Proof.
  induction l as [|z l IH]; intros Hl; constructor.
  - apply IH. intros i j x y Hx Hy Hij. apply (Hl (S i) (S j)); [done..|lia].
  - apply Forall_forall. intros y [j Hy]%list_elem_of_lookup_1.
    apply (Hl 0 (S j)); [done..|lia].
Qed.

Lemma orderMapOf_snoc data x :
  orderMapOf (data ++ [x]) = <[keyOf x := length data]> (orderMapOf data).
Proof.
  unfold orderMapOf. rewrite imap_app, foldl_app. simpl.
  by rewrite Nat.add_0_r.
Qed.

(** With unique keys, the order map sends every key of the plan to its
    index. *)
Lemma orderMapOf_lookup data i k :
  NoDup (keyOf <$> data) →
  (keyOf <$> data) !! i = Some k →
  orderMapOf data !! k = Some i.
Proof.
  revert i. induction data as [|x data IH] using rev_ind; intros i; [done|].
  rewrite fmap_app, NoDup_app. intros (Hdata & Hx & _) Hi.
  rewrite orderMapOf_snoc.
  destruct (decide (i < length (keyOf <$> data))) as [Hlt|Hge].
  - rewrite lookup_app_l in Hi by done.
    rewrite lookup_insert_ne; [by apply IH|].
    intros <-. apply (Hx (keyOf x)); [|set_solver].
    by eapply list_elem_of_lookup_2.
  - rewrite lookup_app_r in Hi by lia.
    rewrite length_fmap in Hi, Hge.
    destruct (i - length data) as [|n] eqn:Hn; simpl in Hi; [|done].
    injection Hi as <-. rewrite lookup_insert_eq. f_equal. lia.
Qed.

Lemma lessByOrder_StrictWeakOrdering fieldDefinitionOrderMap :
  StrictWeakOrdering (lessByOrder fieldDefinitionOrderMap).
Proof.
  unfold lessByOrder. split.
  - intros x. apply bool_decide_eq_false. lia.
  - intros x y z. rewrite !bool_decide_eq_true. lia.
  - intros x y z. rewrite !bool_decide_eq_false. lia.
Qed.

(** The merge sort is one of the sorts that [sort.Slice] may be. *)
Lemma mergeSortSlice_SortsSlices {A : Type} : SortsSlices (@mergeSortSlice A).
Proof.
  intros less l. unfold mergeSortSlice. split.
  - apply merge_sort_Permutation.
  - intros [Hirrefl Htrans Hinc].
    assert (∀ x y, less x y = true → less y x = false) as Hasym.
    { intros x y Hxy. destruct (less y x) eqn:Hyx; [|done].
      by rewrite <- (Hirrefl x), (Htrans x y x). }
    apply StronglySorted_merge_sort.
    + intros x y z Hyx Hzy.
      destruct (less x y) eqn:Hxy.
      { destruct (less z x) eqn:Hzx; [|done].
        by rewrite <- Hzy, (Htrans z x y). }
      destruct (less y z) eqn:Hyz.
      { destruct (less z x) eqn:Hzx; [|done].
        by rewrite <- Hyx, (Htrans y z x). }
      by destruct (Hinc x y z).
    + intros x y. destruct (less y x) eqn:Hyx; [|by left].
      right. by apply Hasym.
Qed.

(** C8. The field definitions returned for a refreshed remote definition
    are the converted remote ones, re-sorted by the index of their key in
    the plan: with unique keys in the plan, of two returned entries whose
    keys the plan has, the one whose key comes first in the plan comes
    first; and when the remote definition has exactly the keys of the plan,
    the returned keys are those of the plan in the plan's order. *)
Theorem convert_sorts_by_desired_order FindBy sortSlice definitionFieldDefinitions data :
  SortsSlices sortSlice →
  NoDup (keyOf <$> data) →
  let out := convertMetaobjectDefinitionToResourceModel
               FindBy sortSlice definitionFieldDefinitions data in
  out ≡ₚ (λ fieldDefinition,
            convertMetaobjectFieldDefinitionToModel fieldDefinition
              (FindBy data (λ v, bool_decide (keyOf v = shopify.fKey fieldDefinition))))
           <$> definitionFieldDefinitions
  ∧ keyOf <$> out ≡ₚ shopify.fKey <$> definitionFieldDefinitions
  ∧ (∀ i j x y a b,
       out !! i = Some x → out !! j = Some y →
       (keyOf <$> data) !! a = Some (keyOf x) →
       (keyOf <$> data) !! b = Some (keyOf y) →
       a < b → i < j)
  ∧ (shopify.fKey <$> definitionFieldDefinitions ≡ₚ keyOf <$> data →
     keyOf <$> out = keyOf <$> data).
Proof.
  intros Hsort Hdata out.
  unfold convertMetaobjectDefinitionToResourceModel in out.
  set (models := _ <$> definitionFieldDefinitions) in *.
  destruct (Hsort (lessByOrder (orderMapOf data)) models) as [Hperm Hsorted].
  specialize (Hsorted (lessByOrder_StrictWeakOrdering _)). fold out in Hperm, Hsorted.
  assert (keyOf <$> out ≡ₚ shopify.fKey <$> definitionFieldDefinitions) as Hkeys.
  { rewrite Hperm. unfold models. rewrite <- list_fmap_compose. done. }
  assert (∀ a k, (keyOf <$> data) !! a = Some k → orderOf (orderMapOf data) k = a)
    as Hrank.
  { intros a k Ha. unfold orderOf. by rewrite (orderMapOf_lookup data a k). }
  split; [done|]. split; [done|]. split.
  - intros i j x y a b Hx Hy Ha Hb Hab.
    destruct (decide (i < j)) as [|Hji]; [done|]. exfalso.
    destruct (decide (i = j)) as [->|Hne].
    { rewrite Hx in Hy. injection Hy as <-.
      pose proof (NoDup_lookup _ a b _ Hdata Ha Hb). lia. }
    pose proof (StronglySorted_lookup _ out j i y x Hsorted Hy Hx ltac:(lia)) as Hle.
    unfold lessByOrder in Hle. apply bool_decide_eq_false in Hle.
    rewrite (Hrank a _ Ha), (Hrank b _ Hb) in Hle. lia.
  - intros Hsame.
    apply (StronglySorted_unique_strong
             (λ k1 k2, orderOf (orderMapOf data) k1 ≤ orderOf (orderMapOf data) k2)).
    + intros k1 k2 Hk1 [b Hb]%list_elem_of_lookup_1 Hle1 Hle2.
      rewrite Hkeys, Hsame in Hk1. apply list_elem_of_lookup_1 in Hk1 as [a Ha].
      rewrite (Hrank a _ Ha), (Hrank b _ Hb) in Hle1, Hle2.
      assert (a = b) as -> by lia. congruence.
    + eapply StronglySorted_fmap; [|done].
      intros x y Hle. unfold lessByOrder in Hle.
      apply bool_decide_eq_false in Hle. simpl. lia.
    + apply StronglySorted_from_lookup. intros a b k1 k2 Ha Hb Hab.
      rewrite (Hrank a _ Ha), (Hrank b _ Hb). lia.
    + by rewrite Hkeys.
Qed.

End sort_results.

(** ** The properties on concrete snapshots *)

Ltac returns_in_key_order :=
  exact (UpdateReturns_intro _ _ _ rangeInKeyOrder_RangeOrder).


(** The scenario of a renamed field: one Update and nothing else. *)
Lemma Update_attribute_change_witness :
  let p := exampleField "a" "single_line_text_field" "Old" in
  let d := exampleField "a" "single_line_text_field" "New" in
  let r := Update rangeInKeyOrder [p] [d] in
  (NoDup (keyOf <$> [p]) ∧ NoDup (keyOf <$> [d]) ∧ Type_ p = Type_ d ∧ p ≠ d)
  ∧ fieldDefinitions1stReq r = [UpdateOp (updateInputOf d)]
  ∧ fieldDefinitions2ndReq r = []
  ∧ recreateFieldDefinitions r = [].
Proof.
  intros p d r.
  split; [(repeat split); [by_computation..|differ]|].
  apply (Update_attribute_change [p] [d] p d r);
    [by_computation..|reflexivity|reflexivity|differ|returns_in_key_order].
Defined.

(** Three prior fields and three desired ones: one retyped, one new, one
    renamed, one removed. *)
Lemma Update_order_witness :
  let prior := [exampleField "a" "single_line_text_field" "A";
                exampleField "b" "boolean" "B";
                exampleField "c" "boolean" "C"] in
  let desired := [exampleField "a" "multi_line_text_field" "A";
                  exampleField "d" "boolean" "D";
                  exampleField "c" "boolean" "C2"] in
  let r := Update rangeInKeyOrder prior desired in
  (NoDup (keyOf <$> prior) ∧ NoDup (keyOf <$> desired))
  ∧ ∃ phase removal,
      fieldDefinitions1stReq r = phase ++ removal
      ∧ phase = fieldDefinitions1stReq (diffLoop (initState prior) desired)
      ∧ phase = desired ≫= (λ d, (emitted (indexOld prior !! keyOf d) d).1.1)
      ∧ phase ≫= opKeys `sublist_of` keyOf <$> desired
      ∧ removal ≡ₚ (DeleteOp ∘ keyOf)
                     <$> filter (λ p, keyOf p ∉ keyOf <$> desired) prior
      ∧ fieldDefinitions2ndReq r ≫= opKeys `sublist_of` keyOf <$> desired
      ∧ recreateFieldDefinitions r `sublist_of` keyOf <$> desired.
Proof.
  intros prior desired r. split; [split; by_computation|].
  apply (Update_order prior desired r); [by_computation..|returns_in_key_order].
Defined.

(** The same two fields in the other order: nothing to do. *)
Lemma Update_idempotent_witness :
  let prior := [exampleField "a" "boolean" "A"; exampleField "b" "boolean" "B"] in
  let desired := [exampleField "b" "boolean" "B"; exampleField "a" "boolean" "A"] in
  let r := Update rangeInKeyOrder prior desired in
  (NoDup (keyOf <$> prior) ∧ desired ≡ₚ prior)
  ∧ fieldDefinitions1stReq r = []
  ∧ fieldDefinitions2ndReq r = []
  ∧ recreateFieldDefinitions r = []
  ∧ logged r = [].
Proof.
  intros prior desired r. split; [split; [by_computation|apply perm_swap]|].
  apply (Update_idempotent prior desired r);
    [by_computation|apply perm_swap|returns_in_key_order].
Defined.

(** Two new fields and no prior one. *)
Lemma Update_empty_prior_witness :
  let desired := [exampleField "b" "boolean" "B"; exampleField "a" "boolean" "A"] in
  let r := Update rangeInKeyOrder [] desired in
  fieldDefinitions1stReq r =
    (CreateOp ∘ convertMetaobjectFieldDefinitionModelToCreateInput) <$> desired
  ∧ fieldDefinitions2ndReq r = []
  ∧ recreateFieldDefinitions r = [].
Proof.
  intros desired r.
  apply (Update_empty_prior desired r). returns_in_key_order.
Defined.

(** Two prior fields and no desired one. *)
Lemma Update_empty_desired_witness :
  let prior := [exampleField "b" "boolean" "B"; exampleField "a" "boolean" "A"] in
  let r := Update rangeInKeyOrder prior [] in
  NoDup (keyOf <$> prior)
  ∧ fieldDefinitions1stReq r ≡ₚ (DeleteOp ∘ keyOf) <$> prior
  ∧ fieldDefinitions2ndReq r = []
  ∧ recreateFieldDefinitions r = [].
Proof.
  intros prior r. split; [by_computation|].
  apply (Update_empty_desired prior r); [by_computation|returns_in_key_order].
Defined.

(** A retyped field: one warning, with no text. *)
Lemma Update_warns_with_empty_message_witness :
  let prior := [exampleField "a" "single_line_text_field" "A"] in
  let desired := [exampleField "a" "multi_line_text_field" "A"] in
  let r := Update rangeInKeyOrder prior desired in
  recreateFieldDefinitions r ≠ []
  ∧ logged r = [(tflog.Warn, EmptyString)].
Proof.
  intros prior desired r. split; [differ|].
  apply (Update_warns_with_empty_message prior desired r);
    [returns_in_key_order|differ].
Defined.

(** Two retyped fields: two Creates in the second request, for the two
    recreated keys. *)
Lemma Update_second_request_pairs_recreate_witness :
  let prior := [exampleField "a" "boolean" "A"; exampleField "b" "boolean" "B"] in
  let desired := [exampleField "b" "color" "B"; exampleField "a" "color" "A"] in
  let r := Update rangeInKeyOrder prior desired in
  Forall (λ op, ∃ input, op = CreateOp input) (fieldDefinitions2ndReq r)
  ∧ length (fieldDefinitions2ndReq r) = length (recreateFieldDefinitions r)
  ∧ ∀ i op, fieldDefinitions2ndReq r !! i = Some op →
      ∃ input, shopify.Create op = Some input
               ∧ recreateFieldDefinitions r !! i = Some (shopify.cKey input).
Proof.
  intros prior desired r.
  apply (Update_second_request_pairs_recreate prior desired r).
  returns_in_key_order.
Defined.

(** The remote definition lists its two fields in the other order than the
    plan: the plan's order is returned. *)
Lemma convert_sorts_by_desired_order_witness :
  let data := [exampleField "a" "boolean" "A"; exampleField "b" "boolean" "B"] in
  let remote := [exampleRemoteField "b" "boolean" "B";
                 exampleRemoteField "a" "boolean" "A"] in
  NoDup (keyOf <$> data)
  ∧ keyOf <$> convertMetaobjectDefinitionToResourceModel
                findFirst mergeSortSlice remote data
    = ["a"%string; "b"%string].
Proof.
  intros data remote. split; [by_computation|].
  apply (convert_sorts_by_desired_order findFirst mergeSortSlice remote data
           mergeSortSlice_SortsSlices); [by_computation|apply perm_swap].
Defined.

(** ** More on the diff: what each key gets *)
Section diff_per_key.

Implicit Types (prior desired : list MetaobjectFieldDefinitionModel).
Implicit Types (st r : UpdateState) (p d : MetaobjectFieldDefinitionModel).

(** The loop, entry by entry: each desired entry paired with what the map
    held under its key when the entry was reached; whatever was found then
    was in the map before the loop. *)
Lemma diffLoop_trace st desired :
  ∃ trace : list (option MetaobjectFieldDefinitionModel * MetaobjectFieldDefinitionModel),
    trace.*2 = desired
    ∧ Forall (λ od, ∀ v, od.1 = Some v →
                oldFieldDefinitionMap st !! keyOf od.2 = Some v) trace
    ∧ fieldDefinitions1stReq (diffLoop st desired) =
        fieldDefinitions1stReq st ++ (trace ≫= λ od, (emitted od.1 od.2).1.1)
    ∧ fieldDefinitions2ndReq (diffLoop st desired) =
        fieldDefinitions2ndReq st ++ (trace ≫= λ od, (emitted od.1 od.2).1.2)
    ∧ recreateFieldDefinitions (diffLoop st desired) =
        recreateFieldDefinitions st ++ (trace ≫= λ od, (emitted od.1 od.2).2).
Proof.
  revert st. induction desired as [|d ds IH]; intros st.
  - exists []. simpl. by rewrite !app_nil_r.
  - destruct (IH (diffStep st d)) as (trace & Hds & Hold & H1 & H2 & H3).
    exists ((oldFieldDefinitionMap st !! keyOf d, d) :: trace).
    split; [by rewrite fmap_cons, Hds|]. split.
    { constructor; [done|]. eapply Forall_impl; [done|].
      intros [o d'] Hv v Ho. specialize (Hv v Ho).
      rewrite diffStep_emitted in Hv. simpl in Hv.
      by apply lookup_delete_Some in Hv as [_ ?]. }
    rewrite diffLoop_cons, H1, H2, H3, diffStep_emitted. simpl.
    by rewrite <- !app_assoc.
Qed.

(** The shapes of what one desired entry puts in the first request. *)
Lemma emitted_first_shapes old d op :
  op ∈ (emitted old d).1.1 →
  (∃ v, old = Some v ∧ op = DeleteOp (keyOf v) ∧ keyOf d ∈ (emitted old d).2)
  ∨ (∃ v, old = Some v ∧ op = UpdateOp (updateInputOf d))
  ∨ (old = None ∧ op = CreateOp (convertMetaobjectFieldDefinitionModelToCreateInput d)).
Proof.
  unfold emitted. destruct old as [v|].
  - case_decide; [set_solver|]. destruct (negb _); simpl.
    + intros ->%list_elem_of_singleton. left. exists v. set_solver.
    + intros ->%list_elem_of_singleton. right. left. by exists v.
  - simpl. intros ->%list_elem_of_singleton. by right; right.
Qed.

Lemma emitted_second_shapes old d op :
  op ∈ (emitted old d).1.2 →
  is_Some old ∧ op = CreateOp (convertMetaobjectFieldDefinitionModelToCreateInput d).
Proof.
  unfold emitted. destruct old as [v|]; [|set_solver].
  case_decide; [set_solver|]. destruct (negb _); simpl; [|set_solver].
  intros ->%list_elem_of_singleton. by split.
Qed.

Lemma emitted_recreate_shapes old d k :
  k ∈ (emitted old d).2 →
  ∃ v, old = Some v ∧ k = keyOf d ∧ DeleteOp (keyOf v) ∈ (emitted old d).1.1.
Proof.
  unfold emitted. destruct old as [v|]; [|set_solver].
  case_decide; [set_solver|]. destruct (negb _); simpl; [|set_solver].
  intros ->%list_elem_of_singleton. exists v. set_solver.
Qed.

Lemma indexOld_lookup_elem_of prior k v :
  indexOld prior !! k = Some v → k ∈ keyOf <$> prior.
Proof.
  intros [<- Hv]%indexOld_lookup_Some. by apply list_elem_of_fmap_2.
Qed.

Lemma RangeOrder_elem_of_iff rangeMap
    (m : gmap string MetaobjectFieldDefinitionModel) v :
  RangeOrder rangeMap → v ∈ rangeMap m ↔ ∃ k, m !! k = Some v.
Proof.
  intros Hrange. rewrite (Hrange m), list_elem_of_fmap. split.
  - intros ([k v'] & -> & Hkv). exists k. by apply elem_of_map_to_list.
  - intros [k Hk]. exists (k, v). split; [done|]. by apply elem_of_map_to_list.
Qed.

(** Every operation of the first request is a Delete of a key of the prior
    snapshot, the Create of a desired entry, or the Update of a desired entry
    whose key the prior snapshot has; every operation of the second request
    is the Create of such an entry. Each sets one of the three pointers, and
    no operation is made up for a key of neither snapshot. *)
Theorem Update_operations_shapes prior desired r :
  UpdateReturns prior desired r →
  Forall (λ op,
            (∃ k, k ∈ keyOf <$> prior ∧ op = DeleteOp k)
            ∨ (∃ d, d ∈ desired
                    ∧ op = CreateOp (convertMetaobjectFieldDefinitionModelToCreateInput d))
            ∨ (∃ d, d ∈ desired ∧ keyOf d ∈ keyOf <$> prior
                    ∧ op = UpdateOp (updateInputOf d)))
         (fieldDefinitions1stReq r)
  ∧ Forall (λ op,
              ∃ d, d ∈ desired ∧ keyOf d ∈ keyOf <$> prior
                   ∧ op = CreateOp (convertMetaobjectFieldDefinitionModelToCreateInput d))
           (fieldDefinitions2ndReq r).
Proof.
  intros [rangeMap Hrange].
  destruct (Update_unfold rangeMap prior desired) as (-> & -> & _ & _).
  destruct (diffLoop_trace (initState prior) desired)
    as (trace & Hds & Hold & -> & -> & _).
  simpl in *. rewrite Forall_forall in Hold.
  assert (∀ o d, (o, d) ∈ trace → d ∈ desired) as Hin.
  { intros o d Hod. rewrite <- Hds. by apply (list_elem_of_fmap_2 snd _ (o, d)). }
  split.
  - apply Forall_app. split.
    + apply Forall_forall. intros op ([o d] & Hop & Hod)%list_elem_of_bind.
      simpl in Hop. pose proof (Hold _ Hod) as Ho. simpl in Ho.
      apply emitted_first_shapes in Hop
        as [(v & -> & -> & _)|[(v & -> & ->)|[-> ->]]].
      * left. exists (keyOf v). split; [|done].
        destruct (indexOld_lookup_Some _ _ _ (Ho v eq_refl)) as [_ ?].
        by apply list_elem_of_fmap_2.
      * right; right. exists d. repeat split; [by eapply Hin|].
        by eapply indexOld_lookup_elem_of, Ho.
      * right; left. exists d. split; [by eapply Hin|done].
    + apply Forall_fmap, Forall_forall.
      intros v [k Hv]%(RangeOrder_elem_of _ _ _ Hrange).
      apply leftover_lookup in Hv as (_ & Hv & _).
      left. exists (keyOf v). split; [by apply list_elem_of_fmap_2|done].
  - apply Forall_forall. intros op ([o d] & Hop & Hod)%list_elem_of_bind.
    simpl in Hop. pose proof (Hold _ Hod) as Ho. simpl in Ho.
    apply emitted_second_shapes in Hop as [[v ->] ->].
    exists d. repeat split; [by eapply Hin|].
    by eapply indexOld_lookup_elem_of, Ho.
Qed.

(** A key is deleted in the first request exactly when it is recreated or
    when the prior snapshot has it and the desired one does not; and a
    recreated key is a key of both snapshots. *)
Theorem Update_deleted_keys prior desired r k :
  UpdateReturns prior desired r →
  (DeleteOp k ∈ fieldDefinitions1stReq r ↔
     k ∈ recreateFieldDefinitions r
     ∨ (k ∈ keyOf <$> prior ∧ k ∉ keyOf <$> desired))
  ∧ (k ∈ recreateFieldDefinitions r →
     k ∈ keyOf <$> prior ∧ k ∈ keyOf <$> desired).
Proof.
  intros [rangeMap Hrange].
  destruct (Update_unfold rangeMap prior desired) as (-> & _ & -> & _).
  destruct (diffLoop_trace (initState prior) desired)
    as (trace & Hds & Hold & -> & _ & ->).
  simpl in *. rewrite Forall_forall in Hold.
  assert (∀ o d v, (o, d) ∈ trace → o = Some v → keyOf v = keyOf d ∧ d ∈ desired
                                     ∧ keyOf d ∈ keyOf <$> prior) as Hin.
  { intros o d v Hod ->. pose proof (Hold _ Hod v eq_refl) as Hv. simpl in Hv.
    repeat split.
    - by apply indexOld_lookup_Some in Hv as [? _].
    - rewrite <- Hds. by apply (list_elem_of_fmap_2 snd _ (Some v, d)).
    - by eapply indexOld_lookup_elem_of. }
  assert (k ∈ trace ≫= (λ od, (emitted od.1 od.2).2) →
          k ∈ keyOf <$> prior ∧ k ∈ keyOf <$> desired) as Hboth.
  { intros ([o d] & Hk & Hod)%list_elem_of_bind. simpl in Hk.
    apply emitted_recreate_shapes in Hk as (v & -> & -> & _).
    destruct (Hin _ _ _ Hod eq_refl) as (_ & ? & ?).
    split; [done|]. by apply list_elem_of_fmap_2. }
  split; [|done].
  rewrite elem_of_app. split.
  - intros [([o d] & Hop & Hod)%list_elem_of_bind|Hop].
    + left. simpl in Hop. apply list_elem_of_bind. exists (o, d). split; [|done].
      apply emitted_first_shapes in Hop
        as [(v & -> & Heq & Hk)|[(v & -> & ?)|[-> ?]]]; [|done..].
      injection Heq as ->. simpl.
      by destruct (Hin _ _ _ Hod eq_refl) as (-> & _).
    + right. apply list_elem_of_fmap in Hop as (v & Heq & Hv).
      injection Heq as ->.
      apply (RangeOrder_elem_of _ _ _ Hrange) in Hv as [k' Hv].
      apply leftover_lookup in Hv as (<- & Hv & Hk).
      split; [by apply list_elem_of_fmap_2|done].
  - intros [([o d] & Hk & Hod)%list_elem_of_bind|[Hprior Hdesired]].
    + left. simpl in Hk. apply list_elem_of_bind. exists (o, d). split; [|done].
      apply emitted_recreate_shapes in Hk as (v & -> & -> & Hop). simpl.
      by destruct (Hin _ _ _ Hod eq_refl) as (<- & _).
    + right. destruct (indexOld prior !! k) as [v|] eqn:Hv.
      * destruct (indexOld_lookup_Some _ _ _ Hv) as [<- _].
        apply (list_elem_of_fmap_2 (DeleteOp ∘ keyOf)).
        apply (RangeOrder_elem_of_iff _ _ _ Hrange). exists (keyOf v).
        rewrite diffLoop_map. by rewrite decide_False.
      * by apply indexOld_lookup_None in Hv.
Qed.

End diff_per_key.

Section diff_keys.

Implicit Types (prior desired : list MetaobjectFieldDefinitionModel).
Implicit Types (st r : UpdateState) (p d : MetaobjectFieldDefinitionModel).

Lemma fmap_as_bind {A B : Type} (g : A → B) (l : list A) :
  g <$> l = l ≫= (λ x, [g x]).
Proof. induction l as [|x l IH]; [done|]. by rewrite fmap_cons, bind_cons, IH. Qed.

(** With unique keys in the desired snapshot, what both requests and the
    recreated keys hold for the key of a desired entry. *)
Lemma Update_at_desired_key prior desired d r :
  NoDup (keyOf <$> desired) →
  d ∈ desired →
  UpdateReturns prior desired r →
  filter (mentions (keyOf d)) (fieldDefinitions1stReq r)
    = (emitted (indexOld prior !! keyOf d) d).1.1
  ∧ filter (mentions (keyOf d)) (fieldDefinitions2ndReq r)
    = (emitted (indexOld prior !! keyOf d) d).1.2
  ∧ filter (eq (keyOf d)) (recreateFieldDefinitions r)
    = (emitted (indexOld prior !! keyOf d) d).2.
Proof.
  intros Hdesired Hd [rangeMap Hrange].
  destruct (Update_unfold rangeMap prior desired) as (-> & -> & -> & _).
  destruct (diffLoop_emitted (initState prior) desired Hdesired) as (-> & -> & ->).
  simpl.
  assert (∀ d' v, indexOld prior !! keyOf d' = Some v → keyOf v = keyOf d') as Hinv.
  { by intros d' v [? _]%indexOld_lookup_Some. }
  rewrite filter_app, leftover_deletes_other_keys, app_nil_r;
    [|done|by apply list_elem_of_fmap_2].
  repeat split.
  - apply (filter_bind_unique opKeys); [done..|].
    intros d' _. apply (emitted_keys _ d' (Hinv d')).
  - apply (filter_bind_unique opKeys); [done..|].
    intros d' _. apply (emitted_keys _ d' (Hinv d')).
  - etrans;
      [|apply (filter_bind_unique (λ k, [k])
                 (λ d', (emitted (indexOld prior !! keyOf d') d').2) desired d);
        [done..|]].
    + apply list_filter_iff. set_solver.
    + intros d' _. apply (emitted_keys _ d' (Hinv d')).
Qed.

(** A new field: with unique keys in the desired snapshot, a desired entry
    whose key the prior snapshot does not have is named by exactly one
    operation of the first request, its Create, and by none of the second;
    its key is not recreated. *)
Theorem Update_new_key prior desired d r :
  NoDup (keyOf <$> desired) →
  d ∈ desired →
  keyOf d ∉ keyOf <$> prior →
  UpdateReturns prior desired r →
  filter (mentions (keyOf d)) (fieldDefinitions1stReq r)
    = [CreateOp (convertMetaobjectFieldDefinitionModelToCreateInput d)]
  ∧ filter (mentions (keyOf d)) (fieldDefinitions2ndReq r) = []
  ∧ filter (eq (keyOf d)) (recreateFieldDefinitions r) = [].
Proof.
  intros Hdesired Hd Hnew Hr.
  destruct (Update_at_desired_key prior desired d r) as (-> & -> & ->); [done..|].
  by apply indexOld_lookup_None in Hnew as ->.
Qed.

(** An unchanged field: with unique keys, an entry that both snapshots hold
    is named by no operation of either request, whatever happens to the
    other entries. *)
Theorem Update_unchanged_key prior desired d r :
  NoDup (keyOf <$> prior) →
  NoDup (keyOf <$> desired) →
  d ∈ prior → d ∈ desired →
  UpdateReturns prior desired r →
  filter (mentions (keyOf d)) (fieldDefinitions1stReq r) = []
  ∧ filter (mentions (keyOf d)) (fieldDefinitions2ndReq r) = []
  ∧ filter (eq (keyOf d)) (recreateFieldDefinitions r) = [].
Proof.
  intros Hprior Hdesired Hp Hd Hr.
  destruct (Update_at_desired_key prior desired d r) as (-> & -> & ->); [done..|].
  rewrite (indexOld_lookup_NoDup prior d) by done.
  unfold emitted. by rewrite decide_True.
Qed.

(** The operations of the loop name keys of the desired snapshot. *)
Lemma diffLoop_first_keys prior desired op :
  op ∈ fieldDefinitions1stReq (diffLoop (initState prior) desired) →
  ∃ d, d ∈ desired ∧ opKeys op = [keyOf d].
Proof.
  destruct (diffLoop_trace (initState prior) desired)
    as (trace & Hds & Hold & -> & _ & _).
  simpl. rewrite Forall_forall in Hold.
  intros ([o d] & Hop & Hod)%list_elem_of_bind. simpl in Hop.
  exists d. split.
  - rewrite <- Hds. by apply (list_elem_of_fmap_2 snd _ (o, d)).
  - assert (∀ v, o = Some v → keyOf v = keyOf d) as Hinv.
    { intros v Ho. pose proof (Hold _ Hod v Ho) as Hv. simpl in Hv.
      by apply indexOld_lookup_Some in Hv as [? _]. }
    destruct (emitted_keys o d Hinv) as (Hkeys & _).
    rewrite Forall_forall in Hkeys. by apply Hkeys.
Qed.

(** A removed field: with unique keys in the prior snapshot, a prior entry
    whose key the desired snapshot does not have is named by exactly one
    operation of the first request, the Delete of its key, and by none of
    the second. *)
Theorem Update_removed_key prior desired p r :
  NoDup (keyOf <$> prior) →
  p ∈ prior →
  keyOf p ∉ keyOf <$> desired →
  UpdateReturns prior desired r →
  filter (mentions (keyOf p)) (fieldDefinitions1stReq r) = [DeleteOp (keyOf p)]
  ∧ filter (mentions (keyOf p)) (fieldDefinitions2ndReq r) = [].
Proof.
  intros Hprior Hp Hgone [rangeMap Hrange].
  destruct (Update_unfold rangeMap prior desired) as (-> & -> & _ & _).
  split.
  - rewrite filter_app, (filter_Forall_nil _ (fieldDefinitions1stReq _)).
    + simpl. apply Permutation_singleton_r.
      rewrite (leftover_to_list rangeMap prior desired Hprior Hrange).
      set (kept := filter (λ p, keyOf p ∉ keyOf <$> desired) prior).
      rewrite (fmap_as_bind (DeleteOp ∘ keyOf) kept).
      assert (filter (mentions (keyOf p)) (kept ≫= λ v, [(DeleteOp ∘ keyOf) v])
              = [DeleteOp (keyOf p)]) as ->; [|done].
      apply (filter_bind_unique opKeys (λ v, [(DeleteOp ∘ keyOf) v]) kept p).
      * eapply sublist_NoDup; [done|]. apply fmap_sublist, sublist_filter.
      * by apply list_elem_of_filter.
      * intros v _. by constructor.
    + apply Forall_forall. intros op (d & Hd & Hop)%diffLoop_first_keys.
      unfold mentions. rewrite Hop. intros Heq%list_elem_of_singleton.
      apply Hgone. rewrite Heq. by apply list_elem_of_fmap_2.
  - destruct (diffLoop_recreate (initState prior) desired) as (recreated & -> & _ & Hsub).
    simpl. apply filter_Forall_nil, Forall_fmap, Forall_forall.
    intros d Hd. unfold mentions. simpl. intros Heq%list_elem_of_singleton.
    apply Hgone. rewrite Heq. apply (list_elem_of_fmap_2 keyOf).
    by eapply elem_of_sublist.
Qed.

(** With unique keys in both snapshots, no key is named twice in the first
    request, nor twice in the second, nor listed twice as recreated: a
    request never holds, for instance, the Delete and the Create of one
    key. *)
Theorem Update_names_each_key_once prior desired r :
  NoDup (keyOf <$> prior) →
  NoDup (keyOf <$> desired) →
  UpdateReturns prior desired r →
  NoDup (fieldDefinitions1stReq r ≫= opKeys)
  ∧ NoDup (fieldDefinitions2ndReq r ≫= opKeys)
  ∧ NoDup (recreateFieldDefinitions r).
Proof.
  intros Hprior Hdesired [rangeMap Hrange].
  destruct (Update_unfold rangeMap prior desired) as (-> & -> & -> & _).
  assert (∀ d v, indexOld prior !! keyOf d = Some v → keyOf v = keyOf d) as Hinv.
  { by intros d v [? _]%indexOld_lookup_Some. }
  split; [|split].
  - rewrite bind_app. apply NoDup_app. repeat split.
    + destruct (diffLoop_emitted (initState prior) desired Hdesired) as (-> & _ & _).
      simpl. eapply sublist_NoDup; [exact Hdesired|].
      apply (bind_keys_sublist opKeys); intros d _;
        apply (emitted_keys _ d (Hinv d)).
    + intros k (op & Hk & Hop)%list_elem_of_bind.
      apply diffLoop_first_keys in Hop as (d & Hd & Hkeys).
      rewrite Hkeys in Hk. apply list_elem_of_singleton in Hk as ->.
      intros (op' & Hk' & (v & -> & Hv)%list_elem_of_fmap)%list_elem_of_bind.
      apply list_elem_of_singleton in Hk'. simpl in Hk'.
      apply (RangeOrder_elem_of _ _ _ Hrange) in Hv as [k' Hv].
      apply leftover_lookup in Hv as (<- & _ & Hgone).
      apply Hgone. rewrite <- Hk'. by apply list_elem_of_fmap_2.
    + rewrite list_fmap_bind.
      rewrite (leftover_to_list rangeMap prior desired Hprior Hrange).
      rewrite <- (fmap_as_bind keyOf).
      eapply sublist_NoDup; [exact Hprior|]. apply fmap_sublist, sublist_filter.
  - destruct (diffLoop_recreate (initState prior) desired) as (recreated & -> & _ & Hsub).
    simpl. rewrite list_fmap_bind, <- (fmap_as_bind keyOf).
    eapply sublist_NoDup; [exact Hdesired|]. by apply fmap_sublist.
  - destruct (diffLoop_recreate (initState prior) desired) as (recreated & _ & -> & Hsub).
    simpl. eapply sublist_NoDup; [exact Hdesired|]. by apply fmap_sublist.
Qed.

End diff_keys.

Section diff_edges.

Implicit Types (prior desired : list MetaobjectFieldDefinitionModel).
Implicit Types (st r : UpdateState) (p d : MetaobjectFieldDefinitionModel).

(** The index of the prior snapshot holds, under a key, the last prior
    entry of that key, and nothing under a key that no prior entry has. *)
Theorem indexOld_last_wins prior k :
  indexOld prior !! k = last (filter (λ v, keyOf v = k) prior).
Proof.
  induction prior as [|x l IH] using rev_ind; [done|].
  rewrite indexOld_snoc, filter_app, lookup_insert.
  case_decide as Hk.
  - by rewrite (filter_cons_True _ x []), filter_nil, last_snoc.
  - by rewrite (filter_cons_False _ x []), filter_nil, app_nil_r.
Qed.

(** When the desired snapshot repeats a key, its second entry is treated as
    new: for a retyped field listed twice, the first request holds both the
    Delete and a Create of the key, and the second request creates it
    again. *)
Theorem Update_repeated_desired_key p d d' r :
  keyOf p = keyOf d → keyOf d' = keyOf d →
  Type_ p ≠ Type_ d →
  UpdateReturns [p] [d; d'] r →
  fieldDefinitions1stReq r =
    [DeleteOp (keyOf d);
     CreateOp (convertMetaobjectFieldDefinitionModelToCreateInput d')]
  ∧ fieldDefinitions2ndReq r =
    [CreateOp (convertMetaobjectFieldDefinitionModelToCreateInput d)]
  ∧ recreateFieldDefinitions r = [keyOf d].
Proof.
  intros Hp Hd' Htype [rangeMap Hrange].
  destruct (Update_unfold rangeMap [p] [d; d']) as (-> & -> & -> & _).
  assert (oldFieldDefinitionMap (diffLoop (initState [p]) [d; d']) = ∅) as ->.
  { apply map_eq. intros k. rewrite diffLoop_map, lookup_empty.
    case_decide as Hk; [done|]. apply indexOld_lookup_None. set_solver. }
  rewrite (RangeOrder_empty _ Hrange), app_nil_r.
  unfold diffLoop. simpl. rewrite !diffStep_emitted. simpl.
  rewrite Hd', lookup_delete_eq.
  unfold indexOld. simpl. rewrite <- Hp, lookup_insert_eq.
  unfold emitted. rewrite decide_False by congruence.
  assert (types.Equal (Type_ d) (Type_ p) = false) as ->.
  { apply Equal_false. congruence. }
  simpl. by rewrite Hp.
Qed.


Lemma Create_fieldDefinitions_fmap desired :
  Create_fieldDefinitions desired =
  convertMetaobjectFieldDefinitionModelToCreateInput <$> desired.
Proof.
  unfold Create_fieldDefinitions.
  induction desired as [|d ds IH] using rev_ind; [done|].
  by rewrite foldl_app, fmap_app, IH.
Qed.

(** An update from a state without field definitions creates, in its first
    request, the inputs that [Create] sends for the same plan, in the same
    order, and leaves the second request empty. *)
Theorem Update_from_nothing_creates_as_Create desired r :
  UpdateReturns [] desired r →
  fieldDefinitions1stReq r = CreateOp <$> Create_fieldDefinitions desired
  ∧ fieldDefinitions2ndReq r = [].
Proof.
  intros [rangeMap Hrange].
  destruct (Update_unfold rangeMap [] desired) as (-> & -> & _ & _).
  destruct (diffLoop_empty_map (initState []) desired eq_refl) as (-> & -> & -> & _).
  simpl. rewrite (RangeOrder_empty _ Hrange), app_nil_r.
  by rewrite Create_fieldDefinitions_fmap, <- list_fmap_compose.
Qed.

End diff_edges.

(** ** The converters: what comes back as it was sent *)
Section converters.

Implicit Types (s : types.String) (b : types.Bool).
Implicit Types (d : MetaobjectFieldDefinitionModel).

Lemma knownString_iff s :
  knownString s = true ↔ types.StringValue (types.ValueString s) = s.
Proof. destruct s; simpl; split; done. Qed.

Lemma knownBool_iff b :
  knownBool b = true ↔ types.BoolValue (types.ValueBool b) = b.
Proof. destruct b; simpl; split; done. Qed.

Lemma ValueStringPointer_default s :
  default EmptyString (types.ValueStringPointer s) = types.ValueString s.
Proof. by destruct s. Qed.

(** The rule for a description, as the three converters write it. *)
Lemma description_back_iff s :
  (if decide (types.ValueString s = EmptyString) then
     if types.IsNull s then types.StringNull
     else types.StringValue (types.ValueString s)
   else types.StringValue (types.ValueString s)) = s
  ↔ IsUnknown s = false.
Proof.
  destruct s as [| |v]; simpl; [done|done|].
  split; [done|]. intros _. by case_decide.
Qed.

Lemma settledValidation_iff (m : MetafieldDefinitionValidationModel) :
  settledValidation m = true ↔
  {| ValidationName := types.StringValue (types.ValueString (ValidationName m));
     ValidationValue := types.StringValue (types.ValueString (ValidationValue m)) |}
  = m.
Proof.
  unfold settledValidation. rewrite andb_true_iff, !knownString_iff.
  destruct m as [n v]. simpl. split.
  - intros [-> ->]. done.
  - intros [= Hn Hv]. by rewrite Hn, Hv.
Qed.


Lemma forallb_Forall {A : Type} (f : A → bool) (l : list A) :
  forallb f l = true ↔ Forall (λ x, f x = true) l.
Proof.
  induction l as [|x l IH]; simpl.
  - split; [constructor|done].
  - rewrite andb_true_iff, Forall_cons, IH. done.
Qed.

Lemma validations_never_empty (remote : list shopify.MetafieldDefinitionValidation) :
  convertValidationsToModels remote ≠ Some [].
Proof.
  unfold convertValidationsToModels. case_decide as Hlen; [done|].
  intros [= Hnil]. apply fmap_nil_inv in Hnil as ->. by apply Hlen.
Qed.

Lemma validations_back_iff
    (validations : option (list MetafieldDefinitionValidationModel)) :
  convertValidationsToModels (convertValidationModelsToValidations validations)
    = validations
  ↔ settledValidations validations = true.
Proof.
  unfold convertValidationsToModels, convertValidationModelsToValidations.
  destruct validations as [l|]; simpl; [|done].
  rewrite length_fmap, andb_true_iff, negb_true_iff, bool_decide_eq_false.
  rewrite forallb_Forall.
  case_decide as Hlen.
  - apply nil_length_inv in Hlen as ->. split; [done|]. by intros [? _].
  - rewrite <- list_fmap_compose. split.
    + intros [= Hl]. split; [by intros ->|].
      rewrite <- (list_fmap_id l) in Hl at 2. apply Forall_fmap_ext in Hl.
      eapply Forall_impl; [done|]. intros m Hm. by apply settledValidation_iff.
    + intros [_ Hl]. f_equal.
      rewrite <- (list_fmap_id l) at 2. apply Forall_fmap_ext.
      eapply Forall_impl; [done|]. intros m Hm. by apply settledValidation_iff.
Qed.

(** The converter to the model never returns an empty slice that is not
    nil, and validations of the model, converted to the remote and back,
    are what they were exactly when they are nil, or not empty with known
    names and values: an empty list of a plan comes back as nil. *)
Theorem validations_model_remote_model
    (validations : option (list MetafieldDefinitionValidationModel))
    (remote : list shopify.MetafieldDefinitionValidation) :
  convertValidationsToModels remote ≠ Some []
  ∧ (convertValidationsToModels (convertValidationModelsToValidations validations)
       = validations
     ↔ settledValidations validations = true).
Proof. split; [apply validations_never_empty|apply validations_back_iff]. Qed.

End converters.

(** ** A refreshed definition against the plan it was made from *)
Section refresh.

Implicit Types (d : MetaobjectFieldDefinitionModel).
Implicit Types (data : list MetaobjectFieldDefinitionModel).

Lemma field_back_iff d :
  convertMetaobjectFieldDefinitionToModel
    (storedFieldDefinition (convertMetaobjectFieldDefinitionModelToCreateInput d))
    (Some d) = d
  ↔ settledField d = true.
Proof.
  unfold settledField. rewrite !andb_true_iff, negb_true_iff.
  rewrite !knownString_iff, knownBool_iff.
  rewrite <- validations_back_iff, <- description_back_iff.
  unfold convertMetaobjectFieldDefinitionToModel, storedFieldDefinition,
    convertMetaobjectFieldDefinitionModelToCreateInput.
  destruct d as [k n ds t rq vs]. simpl.
  rewrite !ValueStringPointer_default. split.
  - intros [= Hk Hn Hds Ht Hrq Hvs]. by rewrite Hk, Hn, Ht, Hrq.
  - intros [[[[[Hk Hn] Hds] Ht] Hrq] Hvs]. by rewrite Hk, Hn, Hds, Ht, Hrq, Hvs.
Qed.

(** A field definition of the plan, sent as a create input, held by the
    remote and converted back against the plan, is the field definition of
    the plan exactly when it is settled: key, name, type and required flag
    known, description null or known, validations nil or not empty with
    known names and values. A plan with an omitted name or an empty
    validations list does not come back as it was. *)
Theorem field_definition_round_trip d :
  convertMetaobjectFieldDefinitionToModel
    (storedFieldDefinition (convertMetaobjectFieldDefinitionModelToCreateInput d))
    (Some d) = d
  ↔ settledField d = true.
Proof. apply field_back_iff. Qed.

Lemma NoDup_keys_eq data x y :
  NoDup (keyOf <$> data) → x ∈ data → y ∈ data → keyOf x = keyOf y → x = y.
Proof.
  intros Hdata Hx Hy Hkey.
  pose proof (indexOld_lookup_NoDup data x Hdata Hx) as Hix.
  pose proof (indexOld_lookup_NoDup data y Hdata Hy) as Hiy.
  rewrite Hkey in Hix. congruence.
Qed.

Lemma orderOf_index data a k :
  NoDup (keyOf <$> data) →
  (keyOf <$> data) !! a = Some k →
  orderOf (orderMapOf data) k = a.
Proof.
  intros Hdata Ha. unfold orderOf. by rewrite (orderMapOf_lookup data a k).
Qed.

(** The field definitions returned for a remote definition that holds
    what was sent for the plan, in whatever order, are those of the plan. *)
Lemma refresh_returns_plan FindBy sortSlice data sent :
  FindsTheOne FindBy →
  SortsSlices sortSlice →
  NoDup (keyOf <$> data) →
  Forall (λ d, settledField d = true) data →
  sent ≡ₚ data →
  convertMetaobjectDefinitionToResourceModel FindBy sortSlice
    ((storedFieldDefinition ∘ convertMetaobjectFieldDefinitionModelToCreateInput)
       <$> sent)
    data
  = data.
Proof.
  intros Hfind Hsort Hdata Hsettled Hsent.
  unfold convertMetaobjectDefinitionToResourceModel.
  rewrite <- list_fmap_compose.
  assert ((λ d, convertMetaobjectFieldDefinitionToModel
                  (storedFieldDefinition
                     (convertMetaobjectFieldDefinitionModelToCreateInput d))
                  (FindBy data
                     (λ v, bool_decide
                             (keyOf v = shopify.fKey
                                (storedFieldDefinition
                                   (convertMetaobjectFieldDefinitionModelToCreateInput d))))))
            <$> sent = sent) as Hmodels.
  { rewrite <- (list_fmap_id sent) at 2. apply Forall_fmap_ext, Forall_forall.
    intros d Hd. rewrite Hsent in Hd.
    rewrite (Hfind data _ d); [| done | by apply bool_decide_eq_true | ].
    - apply field_back_iff. rewrite Forall_forall in Hsettled. by apply Hsettled.
    - intros y Hy Hkey%bool_decide_eq_true. by apply (NoDup_keys_eq data). }
  unfold compose. rewrite Hmodels.
  destruct (Hsort (lessByOrder (orderMapOf data)) sent) as [Hperm Hsorted].
  specialize (Hsorted (lessByOrder_StrictWeakOrdering _)).
  set (out := sortSlice (lessByOrder (orderMapOf data)) sent) in *.
  assert (∀ x, x ∈ data → ∃ a, data !! a = Some x
                               ∧ orderOf (orderMapOf data) (keyOf x) = a) as Hrank.
  { intros x [a Ha]%list_elem_of_lookup_1. exists a. split; [done|].
    apply orderOf_index; [done|]. by rewrite list_lookup_fmap, Ha. }
  apply (StronglySorted_unique_strong
           (λ x y, orderOf (orderMapOf data) (keyOf x)
                   ≤ orderOf (orderMapOf data) (keyOf y))).
  - intros x y Hx Hy Hle1 Hle2. rewrite Hperm, Hsent in Hx.
    destruct (Hrank x Hx) as (a & Ha & Hra), (Hrank y Hy) as (b & Hb & Hrb).
    assert (a = b) as -> by lia. congruence.
  - apply StronglySorted_from_lookup. intros i j x y Hx Hy Hij.
    pose proof (StronglySorted_lookup _ out i j x y Hsorted Hx Hy Hij) as Hle.
    unfold lessByOrder in Hle. apply bool_decide_eq_false in Hle. lia.
  - apply StronglySorted_from_lookup. intros a b x y Ha Hb Hab.
    rewrite (orderOf_index data a (keyOf x)), (orderOf_index data b (keyOf y));
      [lia|done|by rewrite list_lookup_fmap, Hb|done|by rewrite list_lookup_fmap, Ha].
  - by rewrite Hperm.
Qed.

(** No drift after apply: when the plan's field definitions are settled and
    have unique keys, and the remote definition holds, in whatever order,
    the field definitions that were sent for them, the model returned has
    the plan's field definitions, in the plan's order. *)
Theorem refreshed_definition_is_the_plan FindBy sortSlice data sent :
  FindsTheOne FindBy →
  SortsSlices sortSlice →
  NoDup (keyOf <$> data) →
  Forall (λ d, settledField d = true) data →
  sent ≡ₚ data →
  convertMetaobjectDefinitionToResourceModel FindBy sortSlice
    ((storedFieldDefinition ∘ convertMetaobjectFieldDefinitionModelToCreateInput)
       <$> sent)
    data
  = data.
Proof. apply refresh_returns_plan. Qed.

(** An update whose desired snapshot is its prior one has nothing to do. *)
Lemma Update_same_snapshot data r :
  NoDup (keyOf <$> data) →
  UpdateReturns data data r →
  fieldDefinitions1stReq r = []
  ∧ fieldDefinitions2ndReq r = []
  ∧ recreateFieldDefinitions r = []
  ∧ logged r = [].
Proof.
  intros Hdata [rangeMap Hrange].
  destruct (Update_unfold rangeMap data data) as (-> & -> & -> & ->).
  destruct (diffLoop_emitted (initState data) data Hdata) as (-> & -> & ->).
  assert (oldFieldDefinitionMap (diffLoop (initState data) data) = ∅) as ->.
  { apply map_eq. intros k. rewrite diffLoop_map, lookup_empty.
    case_decide as Hk; [done|]. simpl. by apply indexOld_lookup_None. }
  rewrite (RangeOrder_empty _ Hrange). simpl.
  rewrite !bind_all_nil; [done|intros d Hd..];
    rewrite (indexOld_lookup_NoDup data d Hdata Hd);
    unfold emitted; by rewrite decide_True.
Qed.

(** No spurious diff: an update that takes as its prior snapshot the field
    definitions refreshed from such a remote definition, and the same plan
    as its desired one, sends no operation and logs nothing. *)
Theorem refresh_then_Update_has_nothing_to_do FindBy sortSlice data sent r :
  FindsTheOne FindBy →
  SortsSlices sortSlice →
  NoDup (keyOf <$> data) →
  Forall (λ d, settledField d = true) data →
  sent ≡ₚ data →
  UpdateReturns
    (convertMetaobjectDefinitionToResourceModel FindBy sortSlice
       ((storedFieldDefinition ∘ convertMetaobjectFieldDefinitionModelToCreateInput)
          <$> sent)
       data)
    data r →
  fieldDefinitions1stReq r = []
  ∧ fieldDefinitions2ndReq r = []
  ∧ recreateFieldDefinitions r = []
  ∧ logged r = [].
Proof.
  intros Hfind Hsort Hdata Hsettled Hsent.
  rewrite refresh_returns_plan by done.
  by apply Update_same_snapshot.
Qed.

Lemma findFirst_FindsTheOne {A : Type} : FindsTheOne (@findFirst A).
Proof.
  intros l p x Hx Hp Honly. unfold findFirst.
  induction l as [|y l IH]; [set_solver|].
  rewrite filter_cons. case_decide as Hy; simpl.
  - f_equal. apply Honly; [set_solver|done].
  - apply IH.
    + apply elem_of_cons in Hx as [->|Hx]; [done|done].
    + intros z Hz. apply Honly. set_solver.
Qed.

End refresh.

(** ** Access settings, display name key, description *)
Section definition_attributes.

(** The access sent to the remote never carries the storefront setting
    LEGACY_LIQUID_ONLY, and an access of the remote, converted to the model
    and back, is what it was exactly when its storefront setting is not
    that one (which goes back as the empty string). *)
Theorem access_round_trip (m : MetaobjectDefinitionAccessModel)
    (access : MetaobjectAccess) :
  aStorefront (toShopifyModel m) ≠ "LEGACY_LIQUID_ONLY"%string
  ∧ (toShopifyModel (convertAccessToModel access) = access
     ↔ aStorefront access ≠ "LEGACY_LIQUID_ONLY"%string).
Proof.
  unfold toShopifyModel, convertAccessToModel. split.
  - simpl. case_decide; [done|done].
  - destruct access as [admin storefront]. simpl. case_decide as Hs; split.
    + intros [= <-]. done.
    + done.
    + done.
    + done.
Qed.

(** The display name key sent to the remote is never a pointer to the
    empty string; read back as the remote holds it, it is the one of the
    plan exactly when that one is null or known and not empty: an empty
    display name key of a plan comes back as null. *)
Theorem display_name_key_round_trip (s : types.String) :
  displayNameKeyOf s ≠ Some EmptyString
  ∧ (StringPointerValue (displayNameKeyOf s) = s
     ↔ s = types.StringNull
       ∨ ∃ v, v ≠ EmptyString ∧ s = types.StringValue v).
Proof.
  unfold displayNameKeyOf. split.
  - case_decide as Hs; [|done]. destruct s; simpl in *; congruence.
  - destruct s as [| |v]; simpl.
    + split; [by left|done].
    + split; [done|]. intros [?|(v & _ & ?)]; done.
    + case_decide as Hv; simpl; split.
      * intros _. right. by exists v.
      * done.
      * done.
      * intros [?|(w & Hw & [= <-])]; [done|]. by destruct Hv.
Qed.

(** The description of a definition sent as a pointer, held by the remote
    (nil as the empty string) and read back against the plan, is the one of
    the plan unless that one is unknown: null stays null, the empty string
    stays the empty string. *)
Theorem definition_description_round_trip (s : types.String) :
  definitionDescription (default EmptyString (types.ValueStringPointer s)) s = s
  ↔ IsUnknown s = false.
Proof.
  rewrite ValueStringPointer_default, <- description_back_iff. done.
Qed.

End definition_attributes.

(** ** The metafield-definition resource *)
Section metafield_definition.

(** A metafield definition of a plan, sent as the input of [Create], held by
    the remote under an identifier and converted back against the plan, is
    the plan with that identifier exactly when the plan is settled: name,
    owner type, namespace, key, type and pin known, description null or
    known, validations nil or not empty with known names and values. *)
Theorem metafield_definition_round_trip (id : string) (position : Z)
    (data : MetafieldDefinitionResourceModel) :
  convertMetafieldDefinitionToResourceModel
    (storedMetafieldDefinition id position (MetafieldDefinition_createInput data))
    data
  = {| mID := types.StringValue id;
       mName := mName data;
       mDescription := mDescription data;
       mOwnerType := mOwnerType data;
       mNamespace := mNamespace data;
       mKey := mKey data;
       mType := mType data;
       mPin := mPin data;
       mValidations := mValidations data |}
  ↔ settledMetafield data = true.
Proof.
  unfold settledMetafield. rewrite !andb_true_iff, negb_true_iff.
  rewrite !knownString_iff, knownBool_iff.
  rewrite <- validations_back_iff, <- description_back_iff.
  unfold convertMetafieldDefinitionToResourceModel, storedMetafieldDefinition,
    MetafieldDefinition_createInput.
  destruct data as [i n ds ot ns k t pin vs]. simpl.
  assert (bool_decide ((if types.ValueBool pin then Some position else None) ≠ None)
          = types.ValueBool pin) as ->.
  { by destruct (types.ValueBool pin). }
  assert (∀ s : string, String.length s = 0 ↔ s = EmptyString) as Hlen.
  { intros [|a s]; simpl; split; done. }
  assert ((if decide (String.length (types.ValueString ds) = 0)
           then if types.IsNull ds then types.StringNull
                else types.StringValue (types.ValueString ds)
           else types.StringValue (types.ValueString ds))
          = (if decide (types.ValueString ds = EmptyString)
             then if types.IsNull ds then types.StringNull
                  else types.StringValue (types.ValueString ds)
             else types.StringValue (types.ValueString ds))) as ->.
  { repeat case_decide; try done; by destruct (Hlen (types.ValueString ds)); intuition. }
  split.
  - intros [= Hn Hds Hot Hns Hk Ht Hpin Hvs]. by rewrite Hn, Hot, Hns, Hk, Ht, Hpin.
  - intros [[[[[[[Hn Hds] Hot] Hns] Hk] Ht] Hpin] Hvs].
    by rewrite Hn, Hds, Hot, Hns, Hk, Ht, Hpin, Hvs.
Qed.

End metafield_definition.

(** ** The settings of the provider *)
Section provider_settings.

Implicit Types (Getenv : string → string) (data : ShopifyProviderModel).

(** [Configure] reports one error for each of the five settings that
    resolves to the empty string, all of them and not only the first, and
    hands settings to the client exactly when none does; the settings are
    then the resolved ones. *)
Theorem Configure_reports_every_empty_setting Getenv data :
  let result := ShopifyProvider_Configure Getenv data in
  length result.1 = length (filter (λ s, s = EmptyString) (resolvedSettings Getenv data))
  ∧ (result.2 = None ↔ EmptyString ∈ resolvedSettings Getenv data)
  ∧ (∀ settings, result.2 = Some settings →
       result.1 = []
       ∧ [shop settings; apiVersion settings; apiKey settings;
          apiSecretKey settings; adminAPIAccessToken settings]
         = resolvedSettings Getenv data).
Proof.
  unfold ShopifyProvider_Configure, resolvedSettings.
  generalize (readOrEnvDefault Getenv (Shop data) "SHOPIFY_SHOP").
  generalize (readOrEnvDefault Getenv (APIVersion data) "SHOPIFY_API_VERSION").
  generalize (readOrEnvDefault Getenv (APIKey data) "SHOPIFY_API_KEY").
  generalize (readOrEnvDefault Getenv (APISecretKey data) "SHOPIFY_API_SECRET_KEY").
  generalize (readOrEnvDefault Getenv (AdminAPIAccessToken data)
                "SHOPIFY_ADMIN_API_ACCESS_TOKEN").
  intros s5 s4 s3 s2 s1. simpl.
  rewrite !filter_cons, filter_nil, !elem_of_cons, elem_of_nil.
  repeat case_decide; subst; simpl in *; try lia; repeat split;
    try done; try (by intros [= <-]); try (intros; naive_solver).
Qed.

(** A configured value that is not null is never replaced by the
    environment: when one of the five configured values is the empty string
    or unknown, [Configure] fails whatever the environment holds. *)
Theorem Configure_empty_configured_value_fails Getenv data s :
  s ∈ [Shop data; APIVersion data; APIKey data; APISecretKey data;
       AdminAPIAccessToken data] →
  types.IsNull s = false →
  types.ValueString s = EmptyString →
  (ShopifyProvider_Configure Getenv data).2 = None.
Proof.
  intros Hs Hnull Hempty.
  assert (∀ k, readOrEnvDefault Getenv s k = EmptyString) as Hread.
  { intros k. unfold readOrEnvDefault. by rewrite Hnull. }
  unfold ShopifyProvider_Configure.
  repeat (apply elem_of_cons in Hs as [<-|Hs]);
    [rewrite ?Hread; simpl; repeat case_decide; simpl in *; try done; try lia..|].
  - by apply elem_of_nil in Hs.
Qed.

End provider_settings.

(** ** The further properties on concrete inputs *)

(** One retyped, one new, one renamed and one removed field. *)
Lemma Update_operations_shapes_witness :
  let prior := [exampleField "a" "single_line_text_field" "A";
                exampleField "b" "boolean" "B";
                exampleField "c" "boolean" "C"] in
  let desired := [exampleField "a" "multi_line_text_field" "A";
                  exampleField "d" "boolean" "D";
                  exampleField "c" "boolean" "C2"] in
  let r := Update rangeInKeyOrder prior desired in
  Forall (λ op,
            (∃ k, k ∈ keyOf <$> prior ∧ op = DeleteOp k)
            ∨ (∃ d, d ∈ desired
                    ∧ op = CreateOp (convertMetaobjectFieldDefinitionModelToCreateInput d))
            ∨ (∃ d, d ∈ desired ∧ keyOf d ∈ keyOf <$> prior
                    ∧ op = UpdateOp (updateInputOf d)))
         (fieldDefinitions1stReq r)
  ∧ Forall (λ op,
              ∃ d, d ∈ desired ∧ keyOf d ∈ keyOf <$> prior
                   ∧ op = CreateOp (convertMetaobjectFieldDefinitionModelToCreateInput d))
           (fieldDefinitions2ndReq r).
Proof.
  intros prior desired r.
  apply (Update_operations_shapes prior desired r). returns_in_key_order.
Defined.

Lemma Update_deleted_keys_witness :
  let prior := [exampleField "a" "single_line_text_field" "A";
                exampleField "b" "boolean" "B"] in
  let desired := [exampleField "a" "multi_line_text_field" "A"] in
  let r := Update rangeInKeyOrder prior desired in
  (DeleteOp "b" ∈ fieldDefinitions1stReq r ↔
     "b"%string ∈ recreateFieldDefinitions r
     ∨ ("b"%string ∈ keyOf <$> prior ∧ "b"%string ∉ keyOf <$> desired))
  ∧ ("b"%string ∈ recreateFieldDefinitions r →
     "b"%string ∈ keyOf <$> prior ∧ "b"%string ∈ keyOf <$> desired).
Proof.
  intros prior desired r.
  apply (Update_deleted_keys prior desired r "b"). returns_in_key_order.
Defined.

Lemma Update_new_key_witness :
  let prior := [exampleField "a" "boolean" "A"] in
  let d := exampleField "d" "boolean" "D" in
  let desired := [exampleField "a" "boolean" "A"; d] in
  let r := Update rangeInKeyOrder prior desired in
  (NoDup (keyOf <$> desired) ∧ keyOf d ∉ keyOf <$> prior)
  ∧ fieldDefinitions1stReq r
    = [CreateOp (convertMetaobjectFieldDefinitionModelToCreateInput d)]
  ∧ fieldDefinitions2ndReq r = []
  ∧ recreateFieldDefinitions r = [].
Proof.
  intros prior d desired r. split; [split; by_computation|].
  apply (Update_new_key prior desired d r);
    [by_computation..|returns_in_key_order].
Defined.

Lemma Update_unchanged_key_witness :
  let d := exampleField "a" "boolean" "A" in
  let prior := [d; exampleField "b" "boolean" "B"] in
  let desired := [exampleField "b" "color" "B"; d] in
  let r := Update rangeInKeyOrder prior desired in
  (NoDup (keyOf <$> prior) ∧ NoDup (keyOf <$> desired))
  ∧ filter (mentions (keyOf d)) (fieldDefinitions1stReq r) = []
  ∧ filter (mentions (keyOf d)) (fieldDefinitions2ndReq r) = []
  ∧ filter (eq (keyOf d)) (recreateFieldDefinitions r) = [].
Proof.
  intros d prior desired r. split; [split; by_computation|].
  apply (Update_unchanged_key prior desired d r);
    [by_computation..|returns_in_key_order].
Defined.

Lemma Update_removed_key_witness :
  let p := exampleField "b" "boolean" "B" in
  let prior := [exampleField "a" "boolean" "A"; p] in
  let desired := [exampleField "a" "color" "A"] in
  let r := Update rangeInKeyOrder prior desired in
  (NoDup (keyOf <$> prior) ∧ keyOf p ∉ keyOf <$> desired)
  ∧ filter (mentions (keyOf p)) (fieldDefinitions1stReq r) = [DeleteOp (keyOf p)]
  ∧ filter (mentions (keyOf p)) (fieldDefinitions2ndReq r) = [].
Proof.
  intros p prior desired r. split; [split; by_computation|].
  apply (Update_removed_key prior desired p r);
    [by_computation..|returns_in_key_order].
Defined.

Lemma Update_names_each_key_once_witness :
  let prior := [exampleField "a" "single_line_text_field" "A";
                exampleField "b" "boolean" "B";
                exampleField "c" "boolean" "C"] in
  let desired := [exampleField "a" "multi_line_text_field" "A";
                  exampleField "d" "boolean" "D";
                  exampleField "c" "boolean" "C2"] in
  let r := Update rangeInKeyOrder prior desired in
  (NoDup (keyOf <$> prior) ∧ NoDup (keyOf <$> desired))
  ∧ NoDup (fieldDefinitions1stReq r ≫= opKeys)
  ∧ NoDup (fieldDefinitions2ndReq r ≫= opKeys)
  ∧ NoDup (recreateFieldDefinitions r).
Proof.
  intros prior desired r. split; [split; by_computation|].
  apply (Update_names_each_key_once prior desired r);
    [by_computation..|returns_in_key_order].
Defined.

(** A retyped field listed twice in the plan. *)
Lemma Update_repeated_desired_key_witness :
  let p := exampleField "a" "single_line_text_field" "A" in
  let d := exampleField "a" "multi_line_text_field" "A" in
  let d' := exampleField "a" "multi_line_text_field" "Again" in
  let r := Update rangeInKeyOrder [p] [d; d'] in
  Type_ p ≠ Type_ d
  ∧ fieldDefinitions1stReq r =
      [DeleteOp (keyOf d);
       CreateOp (convertMetaobjectFieldDefinitionModelToCreateInput d')]
  ∧ fieldDefinitions2ndReq r =
      [CreateOp (convertMetaobjectFieldDefinitionModelToCreateInput d)]
  ∧ recreateFieldDefinitions r = [keyOf d].
Proof.
  intros p d d' r. split; [differ|].
  apply (Update_repeated_desired_key p d d' r);
    [reflexivity|reflexivity|differ|returns_in_key_order].
Defined.


Lemma Update_from_nothing_creates_as_Create_witness :
  let desired := [exampleField "b" "boolean" "B"; exampleField "a" "boolean" "A"] in
  let r := Update rangeInKeyOrder [] desired in
  fieldDefinitions1stReq r = CreateOp <$> Create_fieldDefinitions desired
  ∧ fieldDefinitions2ndReq r = [].
Proof.
  intros desired r.
  apply (Update_from_nothing_creates_as_Create desired r). returns_in_key_order.
Defined.

(** The remote lists the two fields of the plan in the other order. *)
Lemma refreshed_definition_is_the_plan_witness :
  let data := [exampleField "a" "boolean" "A"; exampleField "b" "boolean" "B"] in
  let sent := [exampleField "b" "boolean" "B"; exampleField "a" "boolean" "A"] in
  (NoDup (keyOf <$> data) ∧ Forall (λ d, settledField d = true) data ∧ sent ≡ₚ data)
  ∧ convertMetaobjectDefinitionToResourceModel findFirst mergeSortSlice
      ((storedFieldDefinition ∘ convertMetaobjectFieldDefinitionModelToCreateInput)
         <$> sent)
      data
    = data.
Proof.
  intros data sent.
  split; [split; [by_computation|split; [by repeat constructor|apply perm_swap]]|].
  apply (refreshed_definition_is_the_plan findFirst mergeSortSlice data sent
           findFirst_FindsTheOne mergeSortSlice_SortsSlices);
    [by_computation|by repeat constructor|apply perm_swap].
Defined.

Lemma refresh_then_Update_has_nothing_to_do_witness :
  let data := [exampleField "a" "boolean" "A"; exampleField "b" "boolean" "B"] in
  let sent := [exampleField "b" "boolean" "B"; exampleField "a" "boolean" "A"] in
  let refreshed :=
    convertMetaobjectDefinitionToResourceModel findFirst mergeSortSlice
      ((storedFieldDefinition ∘ convertMetaobjectFieldDefinitionModelToCreateInput)
         <$> sent)
      data in
  let r := Update rangeInKeyOrder refreshed data in
  fieldDefinitions1stReq r = []
  ∧ fieldDefinitions2ndReq r = []
  ∧ recreateFieldDefinitions r = []
  ∧ logged r = [].
Proof.
  intros data sent refreshed r.
  apply (refresh_then_Update_has_nothing_to_do findFirst mergeSortSlice data sent r
           findFirst_FindsTheOne mergeSortSlice_SortsSlices);
    [by_computation|by repeat constructor|apply perm_swap|returns_in_key_order].
Defined.

(** An empty shop in the configuration, with every variable set in the
    environment. *)
Lemma Configure_empty_configured_value_fails_witness :
  let data := {| Shop := types.StringValue EmptyString;
                 APIVersion := types.StringNull;
                 APIKey := types.StringNull;
                 APISecretKey := types.StringNull;
                 AdminAPIAccessToken := types.StringNull |} in
  (ShopifyProvider_Configure (λ _, "set"%string) data).2 = None.
Proof.
  intros data.
  apply (Configure_empty_configured_value_fails (λ _, "set"%string) data (Shop data));
    [by_computation|reflexivity|reflexivity].
Defined.

(** ** The diff on slices of pointers *)
Section diff_on_pointers.

Lemma rangeDeref_Some {S A : Type} (body : S → A → S) (s : S) (l : list A) :
  rangeDeref body (Returned s) (Some <$> l) = Returned (foldl body s l).
Proof.
  unfold rangeDeref. revert s. induction l as [|x l IH]; intros s; [done|].
  rewrite fmap_cons. simpl. apply IH.
Qed.

Lemma rangeDeref_Panicked {S A : Type} (body : S → A → S) (l : list (option A)) :
  rangeDeref body Panicked l = Panicked.
Proof. unfold rangeDeref. induction l as [|x l IH]; [done|]. simpl. apply IH. Qed.

(** A nil element makes the loop panic, whatever came before it. *)
Lemma rangeDeref_nil_element {S A : Type} (body : S → A → S)
    (init : Outcome S) (l : list (option A)) :
  None ∈ l → rangeDeref body init l = Panicked.
Proof.
  revert init. induction l as [|x l IH]; intros init Hnil; [by apply elem_of_nil in Hnil|].
  apply elem_of_cons in Hnil as [<-|Hnil].
  - unfold rangeDeref. simpl. destruct init; apply rangeDeref_Panicked.
  - unfold rangeDeref. simpl. by apply IH.
Qed.

Lemma no_nil_element {A : Type} (l : list (option A)) :
  None ∉ l → ∃ pointees, l = Some <$> pointees.
Proof.
  induction l as [|x l IH]; intros Hnil.
  - by exists [].
  - destruct IH as [pointees ->]; [set_solver|].
    destruct x as [x|]; [|set_solver]. by exists (x :: pointees).
Qed.

Lemma UpdatePtr_Some rangeMap prior desired :
  UpdatePtr rangeMap (Some <$> prior) (Some <$> desired)
  = Returned (Update rangeMap prior desired).
Proof.
  unfold UpdatePtr, indexOldPtr, diffLoopPtr. by rewrite !rangeDeref_Some.
Qed.

Lemma UpdatePtr_nil_element rangeMap oldFieldDefinitions newFieldDefinitions :
  None ∈ oldFieldDefinitions ∨ None ∈ newFieldDefinitions →
  UpdatePtr rangeMap oldFieldDefinitions newFieldDefinitions = Panicked.
Proof.
  unfold UpdatePtr, indexOldPtr, diffLoopPtr. intros [Hnil|Hnil].
  - by rewrite rangeDeref_nil_element.
  - destruct (rangeDeref _ _ oldFieldDefinitions); [|done].
    by rewrite rangeDeref_nil_element.
Qed.

Lemma rangeInReverseKeyOrder_RangeOrder : RangeOrder rangeInReverseKeyOrder.
Proof. intros m. unfold rangeInReverseKeyOrder. by rewrite reverse_Permutation. Qed.




End diff_on_pointers.
